(** * Render job pipeline: retry combinator, readiness checks, shared
      browser handle and WebP transcode stage

    A shallow embedding of the TypeScript sources

      - [config/startup.ts]   (sleep, formatError, withTimeout, withRetry,
                               the four dependency checks, runStartupChecks)
      - [routes/health.ts]    (the GET /ready handler)
      - the shared Remotion browser module (getSharedRemotionBrowser,
                               closeSharedRemotionBrowser)
      - the two revisions of the ffmpeg module (convertVideoToWebP)
      - the UI routes         (getHtml, getJs, getCss and the three routes)
      - [remotion.config.ts]  (the render scale)
      - [CommitGraphCard.tsx] (contribution levels and the layout of the
                               graph)

    and a model of the job queue and worker pool, whose source is not
    available, written from its specification.

    Asynchronous code that runs from start to end without another call of
    the same module in between is embedded in direct style: a computation
    is a pure function that returns the observable effects it performed
    together with its completion (a value, or a thrown JavaScript value).
    Where calls can overlap (the shared browser handle, the cached UI
    files) a call is split at its [await], and a history says in which
    order calls start and awaited promises settle.  Everything the
    outside world decides (whether a promise settles before a timer, what
    a subprocess does to the file system, whether unlink is permitted,
    what a read delivers) is an explicit argument. *)

From stdpp Require Import base option list strings pretty gmap.
From Stdlib Require Qcanon.

#[local] Set Warnings "-clear-no-such-hyp".


(** ** JavaScript values that can be thrown, and completions *)

(** A thrown value is either an [Error] instance carrying its [message],
    the value [undefined], or some other value, represented by the string
    that [String(v)] yields for it. *)
Inductive JsValue : Type :=
| JsError (message : string)
| JsUndefined
| JsOther (rendering : string).

#[global] Instance JsValue_eq_dec : EqDecision JsValue.
Proof. solve_decision. Defined.

(** The outcome of awaiting an async call. *)
Inductive completion (T : Type) : Type :=
| Normal (v : T)
| Abrupt (e : JsValue).
Arguments Normal {T} v.
Arguments Abrupt {T} e.

(** The state of a promise at the moment somebody looks at it. *)
Inductive settle (T : Type) : Type :=
| Resolves (v : T)
| Rejects (e : JsValue)
| StillPending.
Arguments Resolves {T} v.
Arguments Rejects {T} e.
Arguments StillPending {T}.

(** The double quote character, used by the command template. *)
Definition dquote : string := String (Ascii.ascii_of_nat 34) EmptyString.

(** ** config/startup.ts *)

Module Startup.

(** Observable effects of the startup module: console output, an
    invocation of the wrapped operation raced against a timer, and
    sleeping. *)
Inductive event : Type :=
| EvLog (line : string)
| EvError (line : string)
| EvAttempt (name : string) (attempt : nat) (timeoutMs : N)
| EvSleep (ms : N).

#[global] Instance event_eq_dec : EqDecision event.
Proof. solve_decision. Defined.

(** A computation: the effects it performed and how it completed. *)
Definition M (T : Type) : Type := (list event * completion T)%type.

Definition ret {T} (v : T) : M T := ([], Normal v).
Definition throw {T} (e : JsValue) : M T := ([], Abrupt e).
Definition emit (ev : event) : M unit := ([ev], Normal tt).

Definition bind {A B} (m : M A) (k : A → M B) : M B :=
  match m with
  | (t, Normal v) => let '(t', r) := k v in (t ++ t', r)
  | (t, Abrupt e) => (t, Abrupt e)
  end.

(** [try { m } catch (err) { h err }] *)
Definition try_catch {A} (m : M A) (h : JsValue → M A) : M A :=
  match m with
  | (t, Normal v) => (t, Normal v)
  | (t, Abrupt e) => let '(t', r) := h e in (t ++ t', r)
  end.

Notation "m ;;; k" := (bind m (λ _, k))
  (at level 100, k at level 200, right associativity).

Definition trace {T} (m : M T) : list event := fst m.
Definition outcome {T} (m : M T) : completion T := snd m.

(** [sleep(ms)] *)
Definition sleep (ms : N) : M unit := emit (EvSleep ms).

(** [formatError(err)]: the message of an [Error], [String(err)]
    otherwise. *)
Definition formatError (err : JsValue) : string :=
  match err with
  | JsError m => m
  | JsUndefined => "undefined"
  | JsOther s => s
  end.

(** [withTimeout(promise, timeoutMs, name)].  [Promise.race] settles with
    whichever of the operation's promise and the timer's promise settles
    first; the argument [p] is the state of the operation's promise at the
    moment the timer fires: [StillPending] means that the timer won. *)
Definition withTimeout {T} (p : settle T) (timeoutMs : N) (name : string)
  : completion T :=
  match p with
  | Resolves v => Normal v
  | Rejects e => Abrupt e
  | StillPending =>
      Abrupt (JsError (name +:+ " timed out after " +:+ pretty timeoutMs +:+ "ms"))
  end.

Record RetryOpts : Type := {
  name : string;
  attempts : option nat;
  delayMs : option N;
  timeoutMs : option N;
}.

(** The loop of [withRetry], entered with counter [attempt] and
    [remaining = attempts + 1 - attempt] iterations still allowed by the
    guard [attempt <= attempts].  [fn k] is what the [k]-th invocation of
    the wrapped operation does. *)
Fixpoint retry_loop {T} (fn : nat → settle T) (nm : string)
    (nattempts : nat) (delay tmo : N) (attempt remaining : nat) (lastErr : JsValue)
  : M T :=
  match remaining with
  | 0 =>
      throw (JsError (nm +:+ " failed after " +:+ pretty nattempts +:+
                      " attempts: " +:+ formatError lastErr))
  | S remaining' =>
      try_catch
        ((if 1 <? attempt
          then emit (EvLog ("↻ " +:+ nm +:+ ": retry " +:+ pretty attempt +:+
                            "/" +:+ pretty nattempts +:+ "..."))
          else ret tt) ;;;
         emit (EvAttempt nm attempt tmo) ;;;
         (([], withTimeout (fn attempt) tmo nm) : M T))
        (λ err,
           emit (EvError ("✗ " +:+ nm +:+ " attempt " +:+ pretty attempt +:+
                          "/" +:+ pretty nattempts +:+ " failed: " +:+
                          formatError err)) ;;;
           (if attempt <? nattempts then sleep delay else ret tt) ;;;
           retry_loop fn nm nattempts delay tmo (S attempt) remaining' err)
  end.

(** [withRetry(fn, opts)] with the defaults of its destructuring. *)
Definition withRetry {T} (fn : nat → settle T) (opts : RetryOpts) : M T :=
  let nm := name opts in
  let nattempts := default 10 (attempts opts) in
  let delay := default 1500%N (delayMs opts) in
  let tmo := default 15000%N (timeoutMs opts) in
  retry_loop fn nm nattempts delay tmo 1 nattempts JsUndefined.


(** The values of [env] that the check names interpolate, each as the
    text the template literal produces for it. *)
Record Env : Type := {
  REDIS_URL : string;
  MINIO_ENDPOINT : string;
  MINIO_PORT : string;
  MINIO_BUCKET : string;
  GITHUB_APP_ID : string;
}.

(** What the collaborators do: [validateEnv()] returns or throws, and the
    [k]-th call of each probe action settles (or not) as given. *)
Record World : Type := {
  validateEnv : completion unit;
  redis_ping : nat → settle string;
  ensureBucket : nat → settle unit;
  checkGitHubAppAuth : nat → settle unit;
  warmupBundle : nat → settle unit;
}.

(** The optional argument of the three exported checks. *)
Record CheckOpts : Type := {
  opt_attempts : option nat;
  opt_delayMs : option N;
  opt_timeoutMs : option N;
}.

Definition no_opts : CheckOpts :=
  {| opt_attempts := None; opt_delayMs := None; opt_timeoutMs := None |}.

(** The async arrow function passed by [checkRedisReachable]. *)
Definition redis_probe (w : World) (k : nat) : settle unit :=
  match redis_ping w k with
  | Resolves pong =>
      if decide (pong = "PONG") then Resolves tt
      else Rejects (JsError ("Unexpected Redis PING response: " +:+ pong))
  | Rejects e => Rejects e
  | StillPending => StillPending
  end.

Definition redis_name (env : Env) : string :=
  "Redis reachable (REDIS_URL=" +:+ REDIS_URL env +:+ ")".

Definition minio_name (env : Env) : string :=
  "MinIO reachable (endpoint=" +:+ MINIO_ENDPOINT env +:+ ":" +:+
  MINIO_PORT env +:+ ", bucket=" +:+ MINIO_BUCKET env +:+ ")".

Definition github_name (env : Env) : string :=
  "GitHub reachable + App auth valid (appId=" +:+ GITHUB_APP_ID env +:+ ")".

Definition warmup_name : string := "Remotion bundle warmup".

Definition checkRedisReachable (env : Env) (w : World) (opts : CheckOpts)
  : M unit :=
  withRetry (redis_probe w)
    {| name := redis_name env;
       attempts := Some (default 10 (opt_attempts opts));
       delayMs := Some (default 1500%N (opt_delayMs opts));
       timeoutMs := Some (default 5000%N (opt_timeoutMs opts)) |}.

Definition checkMinioReachable (env : Env) (w : World) (opts : CheckOpts)
  : M unit :=
  withRetry (ensureBucket w)
    {| name := minio_name env;
       attempts := Some (default 10 (opt_attempts opts));
       delayMs := Some (default 2000%N (opt_delayMs opts));
       timeoutMs := Some (default 15000%N (opt_timeoutMs opts)) |}.

Definition checkGitHubAppReachable (env : Env) (w : World) (opts : CheckOpts)
  : M unit :=
  withRetry (checkGitHubAppAuth w)
    {| name := github_name env;
       attempts := Some (default 5 (opt_attempts opts));
       delayMs := Some (default 2000%N (opt_delayMs opts));
       timeoutMs := Some (default 15000%N (opt_timeoutMs opts)) |}.

Definition checkRendererWarmup (w : World) : M unit :=
  withRetry (warmupBundle w)
    {| name := warmup_name;
       attempts := Some 3;
       delayMs := Some 2000%N;
       timeoutMs := Some 120000%N |}.

Inductive ServiceRole : Type := api | worker.

#[global] Instance ServiceRole_eq_dec : EqDecision ServiceRole.
Proof. solve_decision. Defined.

Definition role_text (role : ServiceRole) : string :=
  match role with api => "api" | worker => "worker" end.

Definition runStartupChecks (env : Env) (w : World) (role : ServiceRole)
  : M unit :=
  emit (EvLog "================== STARTUP CHECKS ==================") ;;;
  emit (EvLog ("ROLE=" +:+ role_text role)) ;;;
  (([], validateEnv w) : M unit) ;;;
  emit (EvLog "✓ Env validation passed") ;;;
  checkRedisReachable env w no_opts ;;;
  emit (EvLog "✓ Redis reachable") ;;;
  checkMinioReachable env w no_opts ;;;
  emit (EvLog "✓ MinIO reachable") ;;;
  checkGitHubAppReachable env w no_opts ;;;
  emit (EvLog "✓ GitHub reachable + App auth valid") ;;;
  (match role with
   | worker => checkRendererWarmup w ;;;
               emit (EvLog "✓ Remotion bundle warmed up")
   | api => ret tt
   end) ;;;
  emit (EvLog "====================================================").

End Startup.

(** ** routes/health.ts *)

Module Health.
Import Startup.

Record Checks : Type := {
  server : bool;
  redis : bool;
  minio : bool;
  github : bool;
}.

(** [Object.values(checks)], in insertion order. *)
Definition values (c : Checks) : list bool :=
  [server c; redis c; minio c; github c].

Record Response : Type := {
  status : string;
  checks : Checks;
  code : nat;
}.

(** [try { await check; flag = true } catch { flag = false }] *)
Definition probe (check : M unit) : M bool :=
  try_catch (check ;;; ret true) (λ _, ret false).

(** The handler of [GET /ready]; the timestamp field is left out. *)
Definition ready (env : Env) (w : World) : M Response :=
  bind (probe (checkRedisReachable env w
          {| opt_attempts := Some 1; opt_timeoutMs := Some 1500%N;
             opt_delayMs := Some 0%N |})) (λ r,
  bind (probe (checkMinioReachable env w
          {| opt_attempts := Some 1; opt_timeoutMs := Some 4000%N;
             opt_delayMs := Some 0%N |})) (λ m,
  bind (probe (checkGitHubAppReachable env w
          {| opt_attempts := Some 1; opt_timeoutMs := Some 4000%N;
             opt_delayMs := Some 0%N |})) (λ g,
  let checks := {| server := true; redis := r; minio := m; github := g |} in
  let allHealthy := forallb id (values checks) in
  ret {| status := if allHealthy then "ready" else "degraded";
         checks := checks;
         code := if allHealthy then 200 else 503 |}))).

End Health.

(** ** The shared Remotion browser module *)

Module RemotionBrowser.

(** A launched browser is identified by a number. *)
Definition Browser : Type := nat.

Record RemotionBrowserOptions : Type := {
  chromiumOptions : option string;
  browserExecutable : option string;
}.

Definition no_options : RemotionBrowserOptions :=
  {| chromiumOptions := None; browserExecutable := None |}.

(** The second argument of one [openBrowser('chrome', ...)] call. *)
Record LaunchArgs : Type := {
  arg_browserExecutable : option string;
  arg_chromiumOptions : option string;
}.

(** The module state.  A promise is a handle into [promises]; two handles
    are the same promise exactly when they are equal.  [launches] records
    every call of [openBrowser], [closed] every [b.close()]. *)
Record State : Type := {
  browserPromise : option nat;
  promises : list (settle Browser);
  launches : list LaunchArgs;
  closed : list Browser;
}.

Definition initial : State :=
  {| browserPromise := None; promises := []; launches := []; closed := [] |}.

(** [openBrowser('chrome', args)] starts an engine and returns a new,
    still pending promise. *)
Definition openBrowser (args : LaunchArgs) (st : State) : nat * State :=
  (length (promises st),
   {| browserPromise := browserPromise st;
      promises := promises st ++ [StillPending];
      launches := launches st ++ [args];
      closed := closed st |}).

Definition getSharedRemotionBrowser (options : RemotionBrowserOptions)
    (st : State) : nat * State :=
  match browserPromise st with
  | Some p => (p, st)
  | None =>
      let '(p, st1) :=
        openBrowser {| arg_browserExecutable := browserExecutable options;
                       arg_chromiumOptions := chromiumOptions options |} st in
      (p, {| browserPromise := Some p;
             promises := promises st1;
             launches := launches st1;
             closed := closed st1 |})
  end.

(** The engine start behind promise [p] finishes: a pending promise
    settles, a settled one never changes. *)
Definition settle_promise (p : nat) (o : settle Browser) (st : State) : State :=
  match promises st !! p with
  | Some StillPending =>
      {| browserPromise := browserPromise st;
         promises := <[p := o]> (promises st);
         launches := launches st;
         closed := closed st |}
  | _ => st
  end.

(** What a caller that awaits promise [p] observes. *)
Definition observe (p : nat) (st : State) : settle Browser :=
  default StillPending (promises st !! p).

(** The result of running [closeSharedRemotionBrowser] as far as it can
    go: it completed, or it is suspended in [await browserPromise]. *)
Inductive close_result : Type :=
| Finished (c : completion unit) (st : State)
| Suspended (p : nat).

(** The part of [closeSharedRemotionBrowser] after [await browserPromise],
    given what the awaited promise settled to; [close b] is how
    [b.close()] completes. *)
Definition close_after_await (close : Browser → completion unit)
    (o : settle Browser) (p : nat) (st : State) : close_result :=
  match o with
  | Resolves b =>
      Finished (close b)
        {| browserPromise := None;
           promises := promises st;
           launches := launches st;
           closed := closed st ++ [b] |}
  | Rejects e => Finished (Abrupt e) st
  | StillPending => Suspended p
  end.

Definition closeSharedRemotionBrowser (close : Browser → completion unit)
    (st : State) : close_result :=
  match browserPromise st with
  | None => Finished (Normal tt) st
  | Some p => close_after_await close (observe p st) p st
  end.

(** A history of the module: calls of [getSharedRemotionBrowser] and
    settlements of the promise they share. *)
Inductive step : Type :=
| Acquire (options : RemotionBrowserOptions)
| Settle (o : settle Browser).

(** Runs a history; returns the promise each [Acquire] received. *)
Fixpoint run (h : list step) (st : State) : list nat * State :=
  match h with
  | [] => ([], st)
  | Acquire options :: h' =>
      let '(p, st1) := getSharedRemotionBrowser options st in
      let '(ps, st2) := run h' st1 in
      (p :: ps, st2)
  | Settle o :: h' =>
      run h' (match browserPromise st with
              | Some p => settle_promise p o st
              | None => st
              end)
  end.

End RemotionBrowser.

(** ** The ffmpeg module (two revisions of [convertVideoToWebP]) *)

Module Ffmpeg.

(** JavaScript numbers: the finite ones as rationals, of which the
    doubles are a part, and the three others.  Both zeros are the
    rational zero; the module only compares and prints its numbers, and
    the two zeros compare and print alike. *)
Inductive number : Type :=
| Finite (q : Qcanon.Qc)
| NaN
| PosInfinity
| NegInfinity.

#[global] Instance Qc_eq_dec : EqDecision Qcanon.Qc := Qcanon.Qc_eq_dec.

#[global] Instance number_eq_dec : EqDecision number.
Proof. solve_decision. Defined.

(** The number with the integral value [z]. *)
Definition Int (z : Z) : number :=
  Finite (Qcanon.Q2Qc (QArith_base.inject_Z z)).

(** [x <= y] on finite values. *)
Definition leb (x y : Qcanon.Qc) : bool :=
  match Qcanon.Qccompare x y with Gt => false | _ => true end.

(** [Math.min(a, b)] and [Math.max(a, b)]: [NaN] if either argument is. *)
Definition Math_min (a b : number) : number :=
  match a, b with
  | NaN, _ | _, NaN => NaN
  | NegInfinity, _ | _, NegInfinity => NegInfinity
  | PosInfinity, x | x, PosInfinity => x
  | Finite x, Finite y => Finite (if leb x y then x else y)
  end.

Definition Math_max (a b : number) : number :=
  match a, b with
  | NaN, _ | _, NaN => NaN
  | PosInfinity, _ | _, PosInfinity => PosInfinity
  | NegInfinity, x | x, NegInfinity => x
  | Finite x, Finite y => Finite (if leb x y then y else x)
  end.

(** [Number::toString] with radix 10, which a template literal applies to
    a number: the shortest decimal [s * 10^(n-k)], [s] of [k] digits,
    that is read back as the same double, laid out with or without an
    exponent according to [n].  A rational that is not a double is
    printed as the double nearest to it. *)
Module Digits.

Local Open Scope Z_scope.

(** [2^l * den <= num], for either sign of [l]. *)
Definition pow2_le (l num den : Z) : bool :=
  if 0 <=? l then 2 ^ l * den <=? num else den <=? num * 2 ^ (- l).

(** The largest [l] with [2^l <= num/den], for positive [num] and [den]. *)
Definition log2_floor (num den : Z) : Z :=
  let l := Z.log2 num - Z.log2 den in
  if pow2_le l num den then l else l - 1.

(** The integer nearest to [num/den], the even one of two nearest. *)
Definition round_half_even (num den : Z) : Z :=
  let q := num `div` den in
  match Z.compare (2 * (num `mod` den)) den with
  | Lt => q
  | Gt => q + 1
  | Eq => if Z.even q then q else q + 1
  end.

(** The double nearest to the positive rational [num/den], as [(m, e)]
    with value [m * 2^e], [m < 2^53] and [e >= -1074]; [None] when the
    value rounds to infinity. *)
Definition nearest_double (num den : Z) : option (Z * Z) :=
  let e := (log2_floor num den - 52) `max` (-1074) in
  let m := if 0 <=? e then round_half_even num (den * 2 ^ e)
           else round_half_even (num * 2 ^ (- e)) den in
  let '(m, e) := if m =? 2 ^ 53 then (2 ^ 52, e + 1) else (m, e) in
  if 971 <? e then None else Some (m, e).

(** [m * 2^e] as a fraction. *)
Definition dyadic (m e : Z) : Z * Z :=
  if 0 <=? e then (m * 2 ^ e, 1) else (m, 2 ^ (- e)).

(** [s * 10^t] as a fraction. *)
Definition decimal (s t : Z) : Z * Z :=
  if 0 <=? t then (s * 10 ^ t, 1) else (s, 10 ^ (- t)).

(** [(num/den) / 10^t] as a fraction. *)
Definition scaled (num den t : Z) : Z * Z :=
  if 0 <=? t then (num, den * 10 ^ t) else (num * 10 ^ (- t), den).

(** The [n] with [10^(n-1) <= num/den < 10^n]. *)
Definition magnitude (num den : Z) : Z :=
  let est := (log2_floor num den * 30103) `div` 100000 in
  let reaches n := let '(a, b) := scaled num den (n - 1) in b <=? a in
  if reaches (est + 2) then est + 2
  else if reaches (est + 1) then est + 1
  else if reaches est then est
  else est - 1.

(** Whether the decimal [s * 10^t] is read back as the double [d]. *)
Definition reads_back (d : Z * Z) (s t : Z) : bool :=
  let '(a, b) := decimal s t in
  match nearest_double a b with
  | Some d' => bool_decide (d' = d)
  | None => false
  end.

(** The shortest decimal [s * 10^t] that is read back as the double
    [m * 2^e]; of two such the one nearer to it, and the even one if
    they are equally near.  [n] is the magnitude of the double; the
    number [k] of digits of [s] is tried from 1 upwards, and 17 digits
    always suffice. *)
Fixpoint shortest (fuel : nat) (m e n k : Z) : Z * Z :=
  let '(num, den) := dyadic m e in
  let t := n - k in
  let '(a, b) := scaled num den t in
  let lo := a `div` b in
  match fuel with
  | O => (lo, t)
  | S fuel' =>
      let ok_lo := reads_back (m, e) lo t in
      let ok_hi := reads_back (m, e) (lo + 1) t in
      if ok_lo && ok_hi then
        match Z.compare (2 * (a `mod` b)) b with
        | Lt => (lo, t)
        | Gt => (lo + 1, t)
        | Eq => if Z.even lo then (lo, t) else (lo + 1, t)
        end
      else if ok_lo then (lo, t)
      else if ok_hi then (lo + 1, t)
      else shortest fuel' m e n (k + 1)
  end.

(** Moves the zeros at the end of [s] into the exponent [t]. *)
Fixpoint strip_zeros (fuel : nat) (s t : Z) : Z * Z :=
  match fuel with
  | O => (s, t)
  | S fuel' =>
      if (0 <? s) && (s `mod` 10 =? 0)
      then strip_zeros fuel' (s `div` 10) (t + 1)
      else (s, t)
  end.

Fixpoint zeros (n : nat) : string :=
  match n with O => "" | S n' => "0" +:+ zeros n' end.

(** The layout of the [k] digits [digits] of [s] for the value
    [s * 10^(n-k)]: plain digits up to [n = 21], a leading [0.] down to
    [n = -5], and an exponent beyond. *)
Definition layout (digits : string) (n : Z) : string :=
  let k := Z.of_nat (String.length digits) in
  if (k <=? n) && (n <=? 21) then digits +:+ zeros (Z.to_nat (n - k))
  else if (0 <? n) && (n <=? 21) then
    String.substring 0 (Z.to_nat n) digits +:+ "." +:+
    String.substring (Z.to_nat n) (Z.to_nat (k - n)) digits
  else if (-6 <? n) && (n <=? 0) then
    "0." +:+ zeros (Z.to_nat (- n)) +:+ digits
  else
    let exponent :=
      (if 0 <=? n - 1 then "+" else "-") +:+ pretty (Z.abs (n - 1)) in
    if k =? 1 then digits +:+ "e" +:+ exponent
    else String.substring 0 1 digits +:+ "." +:+
         String.substring 1 (Z.to_nat (k - 1)) digits +:+ "e" +:+ exponent.

(** The text of the positive rational [num/den]. *)
Definition positive_text (num den : Z) : string :=
  match nearest_double num den with
  | None => "Infinity"
  | Some (m, e) =>
      if m =? 0 then "0"
      else
        let '(dn, dd) := dyadic m e in
        let '(s, t) := shortest 17 m e (magnitude dn dd) 1 in
        let '(s, t) := strip_zeros 17 s t in
        let digits := pretty s in
        layout digits (t + Z.of_nat (String.length digits))
  end.

End Digits.

(** The text a template literal produces for a number. *)
Definition toString (n : number) : string :=
  match n with
  | Finite q =>
      let num := QArith_base.Qnum (Qcanon.this q) in
      let den := Z.pos (QArith_base.Qden (Qcanon.this q)) in
      match Z.compare num 0 with
      | Eq => "0"
      | Gt => Digits.positive_text num den
      | Lt => "-" +:+ Digits.positive_text (- num) den
      end
  | NaN => "NaN"
  | PosInfinity => "Infinity"
  | NegInfinity => "-Infinity"
  end.

(** [hay.includes(needle)] *)
Fixpoint includes (hay needle : string) : bool :=
  if String.prefix needle hay then true
  else match hay with
       | EmptyString => false
       | String _ rest => includes rest needle
       end.

Definition Buffer : Type := list Byte.byte.

Record Options : Type := {
  quality : option number;
  fps : option number;
}.

(** Everything the function takes from its surroundings: the imported
    [TEMP_DIR] and [join], the text of
    [Date.now()-Math.random().toString(36).substring(7)] at its two
    evaluations, and what the operating system does on each call.
    [os_writeFile] and [os_exec] may change the files in any way and
    complete either way; [os_exec] completes normally with the text of
    stderr.  [os_readFile] is consulted when the file exists;
    [os_unlink_denied p] is the error of a refused removal of [p]. *)
Record Runtime : Type := {
  TEMP_DIR : string;
  join : string → string → string;
  stamp_input : string;
  stamp_output : string;
  os_writeFile : string → Buffer → gmap string Buffer →
                 gmap string Buffer * completion unit;
  os_exec : string → gmap string Buffer →
            gmap string Buffer * completion string;
  os_readFile : string → Buffer → completion Buffer;
  os_unlink_denied : string → option JsValue;
}.

Inductive event : Type :=
| EvLog (line : string)
| EvWriteFile (path : string)
| EvExec (command : string)
| EvReadFile (path : string)
| EvUnlink (path : string).

#[global] Instance event_eq_dec : EqDecision event.
Proof. solve_decision. Defined.

(** The files on disk and the effects performed so far. *)
Record Sys : Type := {
  files : gmap string Buffer;
  log : list event;
}.

Definition M (T : Type) : Type := Sys → Sys * completion T.

Definition ret {T} (v : T) : M T := λ s, (s, Normal v).
Definition throw {T} (e : JsValue) : M T := λ s, (s, Abrupt e).
Definition emit (ev : event) : M unit :=
  λ s, ({| files := files s; log := log s ++ [ev] |}, Normal tt).

Definition bind {A B} (m : M A) (k : A → M B) : M B :=
  λ s, match m s with
       | (s1, Normal v) => k v s1
       | (s1, Abrupt e) => (s1, Abrupt e)
       end.

Definition try_catch {A} (m : M A) (h : JsValue → M A) : M A :=
  λ s, match m s with
       | (s1, Normal v) => (s1, Normal v)
       | (s1, Abrupt e) => h e s1
       end.

(** [promise.catch(() => {})] *)
Definition swallow (m : M unit) : M unit :=
  λ s, (fst (m s), Normal tt).

#[local] Notation "'await' x := m 'in' k" := (bind m (λ x, k))
  (at level 10, x name, m at level 100, k at level 200).
#[local] Notation "m ;;; k" := (bind m (λ _, k))
  (at level 100, k at level 200, right associativity).

Definition enoent (call path : string) : JsValue :=
  JsError ("ENOENT: no such file or directory, " +:+ call +:+ " '" +:+
           path +:+ "'").

Definition writeFile (rt : Runtime) (path : string) (data : Buffer) : M unit :=
  emit (EvWriteFile path) ;;;
  λ s, let '(fs, c) := os_writeFile rt path data (files s) in
       ({| files := fs; log := log s |}, c).

Definition execAsync (rt : Runtime) (command : string) : M string :=
  emit (EvExec command) ;;;
  λ s, let '(fs, c) := os_exec rt command (files s) in
       ({| files := fs; log := log s |}, c).

Definition readFile (rt : Runtime) (path : string) : M Buffer :=
  emit (EvReadFile path) ;;;
  λ s, match files s !! path with
       | Some data => (s, os_readFile rt path data)
       | None => (s, Abrupt (enoent "open" path))
       end.

Definition unlink (rt : Runtime) (path : string) : M unit :=
  emit (EvUnlink path) ;;;
  λ s, match os_unlink_denied rt path with
       | Some e => (s, Abrupt e)
       | None =>
           match files s !! path with
           | Some _ =>
               ({| files := delete path (files s); log := log s |}, Normal tt)
           | None => (s, Abrupt (enoent "unlink" path))
           end
       end.

Definition inputPath (rt : Runtime) : string :=
  join rt (TEMP_DIR rt) ("input-" +:+ stamp_input rt +:+ ".mp4").

Definition outputPath (rt : Runtime) : string :=
  join rt (TEMP_DIR rt) ("output-" +:+ stamp_output rt +:+ ".webp").

(** The body shared by both revisions; they differ only in the command
    they build from [quality], [fps] and the two paths. *)
Definition convert (ffmpegCommand : number → number → string → string → string)
    (rt : Runtime) (videoBuffer : Buffer) (options : option Options)
  : M Buffer :=
  let quality := default (Int 85) (options ≫= quality) in
  let fps := default (Int 30) (options ≫= fps) in
  let inputPath := inputPath rt in
  let outputPath := outputPath rt in
  try_catch
    (writeFile rt inputPath videoBuffer ;;;
     emit (EvLog ("[ffmpeg] Converting MP4 to WebP: " +:+ inputPath +:+
                  " -> " +:+ outputPath)) ;;;
     await stderr := execAsync rt (ffmpegCommand quality fps inputPath outputPath) in
     (if includes stderr "Error"
      then throw (JsError ("FFmpeg conversion failed: " +:+ stderr))
      else ret tt) ;;;
     await webpBuffer := readFile rt outputPath in
     swallow (unlink rt inputPath) ;;;
     swallow (unlink rt outputPath) ;;;
     emit (EvLog ("[ffmpeg] Conversion complete: " +:+
                  pretty (length webpBuffer) +:+ " bytes")) ;;;
     ret webpBuffer)
    (λ error,
       swallow (unlink rt inputPath) ;;;
       swallow (unlink rt outputPath) ;;;
       match error with
       | JsError message =>
           throw (JsError ("Failed to convert video to WebP: " +:+ message))
       | _ => throw error
       end).

(** The revision that passes [-q:v] and clamps the quality. *)
Module Clamped.

Definition adjustedQuality (quality : number) : number :=
  Math_max (Int 60) (Math_min (Int 70) quality).

Definition ffmpegCommand (quality fps : number) (inputPath outputPath : string)
  : string :=
  "ffmpeg -i " +:+ dquote +:+ inputPath +:+ dquote +:+
  " -vf " +:+ dquote +:+ "fps=" +:+ toString fps +:+ dquote +:+
  " -c:v libwebp -q:v " +:+ toString (adjustedQuality quality) +:+
  " -compression_level 6 -lossless 0 -loop 0 -an -vsync 0 -pix_fmt yuv420p -y " +:+
  dquote +:+ outputPath +:+ dquote.

Definition convertVideoToWebP : Runtime → Buffer → option Options → M Buffer :=
  convert ffmpegCommand.

End Clamped.

(** The revision that passes [-quality]. *)
Module Plain.

Definition ffmpegCommand (quality fps : number) (inputPath outputPath : string)
  : string :=
  "ffmpeg -i " +:+ dquote +:+ inputPath +:+ dquote +:+
  " -vf " +:+ dquote +:+ "fps=" +:+ toString fps +:+ dquote +:+
  " -c:v libwebp -quality " +:+ toString quality +:+
  " -compression_level 6 -method 6 -loop 0 -an -vsync 0 -pix_fmt yuv420p -y " +:+
  dquote +:+ outputPath +:+ dquote.

Definition convertVideoToWebP : Runtime → Buffer → option Options → M Buffer :=
  convert ffmpegCommand.

End Plain.

End Ffmpeg.

(** ** Job queue and worker pool *)

Module WorkerPool.

(** Modelled from the spec: the four states of a job; the worker source
    (workers/render-worker.ts) is not among the sources. *)
Inductive JobStatus : Type := queued | active | completed | failed.

#[global] Instance JobStatus_eq_dec : EqDecision JobStatus.
Proof. solve_decision. Defined.

(** Modelled from the spec: the job record of the data model (the worker
    source, workers/render-worker.ts, is not among the sources): its key,
    its status and, in a terminal state, the artifact URL or the error
    description. *)
Record Job : Type := {
  key : string;
  status : JobStatus;
  result : option string;
}.

(** Modelled from the spec: the queue store's job records, the FIFO of
    queued job ids, and one slot per worker holding the job whose pipeline
    that worker is executing. *)
Record Pool : Type := {
  jobs : gmap nat Job;
  queue : list nat;
  workers : list (option nat);
}.

(** Modelled from the spec: a pool with concurrency limit [W] starts with
    [W] idle workers and no jobs. *)
Definition initial (W : nat) : Pool :=
  {| jobs := ∅; queue := []; workers := replicate W None |}.

Definition is_active (j : Job) : Prop := status j = active.

#[global] Instance is_active_dec j : Decision (is_active j).
Proof. unfold is_active. apply _. Defined.

Definition pending_with (k : string) (j : Job) : Prop :=
  key j = k ∧ (status j = queued ∨ status j = active).

#[global] Instance pending_with_dec k j : Decision (pending_with k j).
Proof. unfold pending_with. apply _. Defined.

(** Modelled from the spec: submission enqueues a job in state [queued];
    with dedup-by-key enabled a key that is still queued or active is
    rejected. *)
Definition submit (dedup : bool) (k : string) (p : Pool) : Pool :=
  if dedup && bool_decide (map_Exists (λ _ j, pending_with k j) (jobs p))
  then p
  else
    let id := fresh (dom (jobs p)) in
    {| jobs := <[id := {| key := k; status := queued; result := None |}]> (jobs p);
       queue := queue p ++ [id];
       workers := workers p |}.

(** Modelled from the spec: an idle worker dequeues the next job (FIFO)
    and marks it active; a busy worker, or an empty queue, changes
    nothing. *)
Definition dequeue (i : nat) (p : Pool) : Pool :=
  match workers p !! i, queue p with
  | Some None, id :: rest =>
      {| jobs := alter (λ j, {| key := key j; status := active;
                                result := result j |}) id (jobs p);
         queue := rest;
         workers := <[i := Some id]> (workers p) |}
  | _, _ => p
  end.

(** Modelled from the spec: the pipeline of worker [i] ends; its job
    becomes [completed] with the URL or [failed] with the error, is not
    queued again, and the worker is available for the next job. *)
Definition finish (i : nat) (ok : bool) (text : string) (p : Pool) : Pool :=
  match workers p !! i with
  | Some (Some id) =>
      {| jobs := alter (λ j, {| key := key j;
                                status := if ok then completed else failed;
                                result := Some text |}) id (jobs p);
         queue := queue p;
         workers := <[i := None]> (workers p) |}
  | _ => p
  end.

(** Modelled from the spec: the atomic steps of the pool (the worker
    source is not among the sources): a submission, worker [i] dequeuing,
    and the pipeline of worker [i] ending in success or failure. *)
Inductive op : Type :=
| Submit (k : string)
| Dequeue (i : nat)
| Finish (i : nat) (ok : bool) (text : string).

Definition apply_op (dedup : bool) (o : op) (p : Pool) : Pool :=
  match o with
  | Submit k => submit dedup k p
  | Dequeue i => dequeue i p
  | Finish i ok text => finish i ok text p
  end.

(** Modelled from the spec: the pool after a history of submissions,
    dequeues and pipeline completions, in the order they happened. *)
Definition run (dedup : bool) (h : list op) (p : Pool) : Pool :=
  foldl (λ p o, apply_op dedup o p) p h.

(** Modelled from the spec: the number of job records whose status is
    [active]. *)
Definition active_count (p : Pool) : nat :=
  size (filter (λ kv, is_active kv.2) (jobs p)).

End WorkerPool.

(** ** The UI routes (cached static files) *)

Module UiRoutes.

(** The three module-level variables; [None] is [null]. *)
Record Cache : Type := {
  cachedHtml : option string;
  cachedJs : option string;
  cachedCss : option string;
}.

Definition empty_cache : Cache :=
  {| cachedHtml := None; cachedJs := None; cachedCss := None |}.

(** What the module takes from its surroundings: [UI_DIR] and [join]. *)
Record Runtime : Type := {
  UI_DIR : string;
  join : string → string → string;
}.

(** The cache and the paths read so far.  A call of [readFile] is
    identified by its position in [reads]. *)
Record Sys : Type := {
  cache : Cache;
  reads : list string;
}.

(** A string in a condition: [null] and the empty string are falsy. *)
Definition truthy (v : option string) : bool :=
  match v with
  | Some (String _ _) => true
  | _ => false
  end.

(** How far an async call gets before it hands control back: it
    completed, or it is suspended in [await] until the read it started
    settles. *)
Inductive progress (T : Type) : Type :=
| Completed (c : completion T)
| Awaits (read : nat).
Arguments Completed {T} c.
Arguments Awaits {T} read.

(** An async function with one [await readFile(...)] in it: the part up
    to the [await], and the part that runs once the read has settled. *)
Record Async (T : Type) : Type := {
  start : Sys → Sys * progress T;
  resumed : completion string → Sys → Sys * completion T;
}.
Arguments start {T} _ _.
Arguments resumed {T} _ _ _.

(** [readFile(path, "utf-8")] starts a read and returns its promise. *)
Definition readFile (path : string) (s : Sys) : Sys * nat :=
  ({| cache := cache s; reads := reads s ++ [path] |}, length (reads s)).

Definition getHtml (rt : Runtime) : Async string :=
  {| start := λ s,
       match cachedHtml (cache s) with
       | Some (String a rest) => (s, Completed (Normal (String a rest)))
       | _ =>
           let '(s1, read) := readFile (join rt (UI_DIR rt) "index.html") s in
           (s1, Awaits read)
       end;
     resumed := λ settled s,
       match settled with
       | Normal data =>
           ({| cache := {| cachedHtml := Some data;
                           cachedJs := cachedJs (cache s);
                           cachedCss := cachedCss (cache s) |};
               reads := reads s |}, Normal data)
       | Abrupt e => (s, Abrupt e)
       end |}.

Definition getJs (rt : Runtime) : Async string :=
  {| start := λ s,
       match cachedJs (cache s) with
       | Some (String a rest) => (s, Completed (Normal (String a rest)))
       | _ =>
           let '(s1, read) := readFile (join rt (UI_DIR rt) "app.js") s in
           (s1, Awaits read)
       end;
     resumed := λ settled s,
       match settled with
       | Normal data =>
           ({| cache := {| cachedHtml := cachedHtml (cache s);
                           cachedJs := Some data;
                           cachedCss := cachedCss (cache s) |};
               reads := reads s |}, Normal data)
       | Abrupt e => (s, Abrupt e)
       end |}.

Definition getCss (rt : Runtime) : Async string :=
  {| start := λ s,
       match cachedCss (cache s) with
       | Some (String a rest) => (s, Completed (Normal (String a rest)))
       | _ =>
           let '(s1, read) := readFile (join rt (UI_DIR rt) "app.css") s in
           (s1, Awaits read)
       end;
     resumed := λ settled s,
       match settled with
       | Normal data =>
           ({| cache := {| cachedHtml := cachedHtml (cache s);
                           cachedJs := cachedJs (cache s);
                           cachedCss := Some data |};
               reads := reads s |}, Normal data)
       | Abrupt e => (s, Abrupt e)
       end |}.

(** What a handler answers: [c.html(body)], or [c.text(body, status,
    headers)]. *)
Inductive Response : Type :=
| Html (body : string)
| Text (body : string) (status : nat) (headers : list (string * string)).

(** [async (c) => { const body = await get(); return build(body); }] *)
Definition respond (get : Async string) (build : string → Response)
  : Async Response :=
  {| start := λ s,
       match start get s with
       | (s1, Completed (Normal body)) => (s1, Completed (Normal (build body)))
       | (s1, Completed (Abrupt e)) => (s1, Completed (Abrupt e))
       | (s1, Awaits read) => (s1, Awaits read)
       end;
     resumed := λ settled s,
       match resumed get settled s with
       | (s1, Normal body) => (s1, Normal (build body))
       | (s1, Abrupt e) => (s1, Abrupt e)
       end |}.

(** The three [GET] routes; any other path is not handled here. *)
Definition uiRoutes (rt : Runtime) (path : string) : option (Async Response) :=
  if decide (path = "/") then
    Some (respond (getHtml rt) Html)
  else if decide (path = "/assets/app.js") then
    Some (respond (getJs rt) (λ js,
      Text js 200 [("Content-Type", "application/javascript; charset=utf-8");
                   ("Cache-Control", "no-store")]))
  else if decide (path = "/assets/app.css") then
    Some (respond (getCss rt) (λ css,
      Text css 200 [("Content-Type", "text/css; charset=utf-8");
                    ("Cache-Control", "no-store")]))
  else None.

(** The process serving requests: the module state, the requests whose
    handler is suspended (each under the read it awaits, with the path
    it asked for), and the responses given so far, in order. *)
Record Server : Type := {
  sys : Sys;
  suspended : gmap nat string;
  responses : list (completion Response);
}.

(** What happens to the process: a request for [path] arrives, or the
    read [read] settles with [result]. *)
Inductive step : Type :=
| Request (path : string)
| Settles (read : nat) (result : completion string).

(** One turn of the event loop.  A request runs its handler up to the
    [await]; a settled read resumes the handler that awaits it, and means
    nothing if no handler does. *)
Definition turn (rt : Runtime) (st : step) (sv : Server) : Server :=
  match st with
  | Request path =>
      match uiRoutes rt path with
      | None => sv
      | Some handler =>
          match start handler (sys sv) with
          | (s1, Completed c) =>
              {| sys := s1; suspended := suspended sv;
                 responses := responses sv ++ [c] |}
          | (s1, Awaits read) =>
              {| sys := s1; suspended := <[read := path]> (suspended sv);
                 responses := responses sv |}
          end
      end
  | Settles read result =>
      match suspended sv !! read with
      | None => sv
      | Some path =>
          match uiRoutes rt path with
          | None => sv
          | Some handler =>
              let '(s1, c) := resumed handler result (sys sv) in
              {| sys := s1; suspended := delete read (suspended sv);
                 responses := responses sv ++ [c] |}
          end
      end
  end.

End UiRoutes.

(** ** remotion.config.ts *)

Module RemotionConfig.

(** JavaScript numbers: the finite ones as rationals, and the three
    others. *)
Inductive number : Type :=
| Finite (q : Qcanon.Qc)
| NaN
| PosInfinity
| NegInfinity.

Definition zero : Qcanon.Qc := Qcanon.Q2Qc (QArith_base.Qmake 0 1).
Definition one : Qcanon.Qc := Qcanon.Q2Qc (QArith_base.Qmake 1 1).

(** [Number.isFinite(n)] *)
Definition isFinite (n : number) : bool :=
  match n with Finite _ => true | _ => false end.

(** [n > 0] *)
Definition positive (n : number) : bool :=
  match n with
  | Finite q => bool_decide (Qcanon.Qclt zero q)
  | PosInfinity => true
  | _ => false
  end.

(** [Number(process.env.RENDER_SCALE ?? 1)]; [Number] on strings is the
    argument [toNumber]. *)
Definition scaleFromEnv (toNumber : string → number)
    (RENDER_SCALE : option string) : number :=
  match RENDER_SCALE with
  | Some text => toNumber text
  | None => Finite one
  end.

Definition scale (toNumber : string → number) (RENDER_SCALE : option string)
  : number :=
  let scaleFromEnv := scaleFromEnv toNumber RENDER_SCALE in
  if isFinite scaleFromEnv && positive scaleFromEnv then scaleFromEnv
  else Finite one.

End RemotionConfig.

(** ** components/cards/CommitGraphCard.tsx (levels and layout) *)

Module CommitGraphCard.

Local Open Scope Z_scope.

(** Counts are integers. *)
Definition getContributionLevel (count : Z) : Z :=
  if count =? 0 then 0
  else if (1 <=? count) && (count <=? 9) then 1
  else if (10 <=? count) && (count <=? 19) then 2
  else if (20 <=? count) && (count <=? 29) then 3
  else 4.

Record ContributionDay : Type := {
  contributionCount : option Z;
  date : option string;
}.

Record Week : Type := {
  contributionDays : list ContributionDay;
}.

(** The values imported from [settings] that the layout uses, whole
    numbers of pixels. *)
Record Settings : Type := {
  outerPadding : Z;
  padding : Z;
  gap : Z;
}.

Record Cell : Type := {
  level : Z;
  cell_date : string;
}.

(** [graphData], as the two nested [forEach] loops fill it. *)
Definition graphData (weeks : list Week) : list (list Cell) :=
  (λ week,
     (λ day, {| level := getContributionLevel (default 0 (contributionCount day));
                cell_date := default "" (date day) |})
     <$> contributionDays week)
  <$> weeks.

Definition cardInnerWidth (st : Settings) : Z :=
  900 - (outerPadding st * 2) - (padding st * 2).

Definition availableGraphWidth (st : Settings) : Z := cardInnerWidth st.

(** [Math.floor(a / b)] on integers with [b > 0] is [a `div` b]. *)
Definition squareSize (st : Settings) (targetWeeks : Z) : Z :=
  (availableGraphWidth st - (targetWeeks - 1) * gap st) `div` targetWeeks.

Definition graphWidth (st : Settings) (targetWeeks : Z) : Z :=
  targetWeeks * (squareSize st targetWeeks + gap st) - gap st.

Definition graphHeight (st : Settings) (targetWeeks : Z) : Z :=
  7 * (squareSize st targetWeeks + gap st) - gap st.

(** The corner of a square before its animation offsets. *)
Definition x (st : Settings) (targetWeeks weekIndex : Z) : Z :=
  weekIndex * (squareSize st targetWeeks + gap st).

Definition y (st : Settings) (targetWeeks dayIndex : Z) : Z :=
  dayIndex * (squareSize st targetWeeks + gap st).

Record GraphColors : Type := {
  empty : string;
  level1 : string;
  level2 : string;
  level3 : string;
  level4 : string;
}.

Definition getColor (graphColors : GraphColors) (level : Z) : string :=
  match level with
  | 0 => empty graphColors
  | 1 => level1 graphColors
  | 2 => level2 graphColors
  | 3 => level3 graphColors
  | 4 => level4 graphColors
  | _ => empty graphColors
  end.

End CommitGraphCard.

(** * Vocabulary of the statements *)

Module StartupSpec.
Import Startup.

(** An attempt fails when the wrapped operation rejects or is still
    pending when the timer fires. *)
Definition attempt_fails {T} (s : settle T) : bool :=
  match s with Resolves _ => false | _ => true end.

(** The error [withRetry] catches for a failed attempt. *)
Definition attempt_error {T} (s : settle T) (tmo : N) (nm : string) : JsValue :=
  match withTimeout s tmo nm with
  | Abrupt e => e
  | Normal _ => JsUndefined
  end.

(** The part of a trace that says when the operation was invoked and when
    the combinator slept. *)
Definition is_schedule (ev : event) : bool :=
  match ev with
  | EvAttempt _ _ _ | EvSleep _ => true
  | _ => false
  end.

Definition schedule (tr : list event) : list event := List.filter is_schedule tr.

(** [sep] between every two neighbours of [l], and nowhere else. *)
Fixpoint intersperse {A} (sep : A) (l : list A) : list A :=
  match l with
  | [] => []
  | x :: l' =>
      match l' with
      | [] => [x]
      | _ :: _ => x :: sep :: intersperse sep l'
      end
  end.

(** Attempts [first], [first+1], ... ([count] of them) with a sleep of
    [delay] between consecutive ones. *)
Definition plan (nm : string) (tmo delay : N) (first count : nat) : list event :=
  intersperse (EvSleep delay) ((λ j, EvAttempt nm j tmo) <$> seq first count).

(** The text of the error raised when every attempt failed. *)
Definition exhausted_text (nm : string) (n : nat) (last : JsValue) : string :=
  nm +:+ " failed after " +:+ pretty n +:+ " attempts: " +:+ formatError last.





Definition passes {T} (s : settle T) : bool := negb (attempt_fails s).

Definition is_2xx (code : nat) : bool := (200 <=? code) && (code <? 300).

(** A ping that was answered in time, and with precisely [PONG]. *)
Definition pong (s : settle string) : bool :=
  match s with
  | Resolves reply => bool_decide (reply = "PONG")
  | _ => false
  end.

(** Attempt [k] is the first that passes. *)
Definition first_pass {T} (fn : nat → settle T) (k : nat) : Prop :=
  1 ≤ k ∧ attempt_fails (fn k) = false
  ∧ ∀ j, 1 ≤ j < k → attempt_fails (fn j) = true.

(** None of the first [n] attempts passes. *)
Definition never_passes {T} (fn : nat → settle T) (n : nat) : Prop :=
  ∀ j, 1 ≤ j ≤ n → attempt_fails (fn j) = true.

Definition env_demo : Env :=
  {| REDIS_URL := "redis://cache:6379"; MINIO_ENDPOINT := "minio";
     MINIO_PORT := "9000"; MINIO_BUCKET := "renders"; GITHUB_APP_ID := "42" |}.

(** Redis answers only the second ping correctly; everything else is up. *)
Definition world_demo : World :=
  {| validateEnv := Normal tt;
     redis_ping := λ k, if k =? 2 then Resolves "PONG" else Resolves "LOADING";
     ensureBucket := λ _, Resolves tt;
     checkGitHubAppAuth := λ _, Resolves tt;
     warmupBundle := λ _, Resolves tt |}.

(** The longest time a trace can have kept its caller waiting: every
    attempt for its whole deadline, every sleep in full (milliseconds). *)
Definition budget (tr : list event) : N :=
  foldr (λ ev acc,
           match ev with
           | EvAttempt _ _ t => t + acc
           | EvSleep d => d + acc
           | _ => acc
           end)%N 0%N tr.

(** An environment that does not validate. *)
Definition world_invalid : World :=
  {| validateEnv := Abrupt (JsError "Missing required env var: REDIS_URL");
     redis_ping := λ _, Resolves "PONG";
     ensureBucket := λ _, Resolves tt;
     checkGitHubAppAuth := λ _, Resolves tt;
     warmupBundle := λ _, Resolves tt |}.

(** Redis is reachable but still loading its data set. *)
Definition world_loading : World :=
  {| validateEnv := Normal tt;
     redis_ping := λ _, Resolves "LOADING";
     ensureBucket := λ _, Resolves tt;
     checkGitHubAppAuth := λ _, Resolves tt;
     warmupBundle := λ _, Resolves tt |}.

End StartupSpec.

Module BrowserSpec.
Import RemotionBrowser.

(** The handle after one acquisition whose engine start failed. *)
Definition after_failed_start : State :=
  (run [Acquire no_options; Settle (Rejects (JsError "Failed to launch"))]
       initial).2.

(** The handle while the engine is starting, and once browser 7 is up. *)
Definition starting_handle : State := (run [Acquire no_options] initial).2.

Definition ready_handle : State :=
  (run [Acquire no_options; Settle (Resolves 7)] initial).2.

(** The arguments [getSharedRemotionBrowser] passes to [openBrowser]. *)
Definition launch_args (options : RemotionBrowserOptions) : LaunchArgs :=
  {| arg_browserExecutable := browserExecutable options;
     arg_chromiumOptions := chromiumOptions options |}.

End BrowserSpec.

Module FfmpegSpec.
Import Ffmpeg.

(** The same runtime with another behaviour of [unlink]. *)
Definition with_unlink_denied (denied : string → option JsValue)
    (rt : Runtime) : Runtime :=
  {| TEMP_DIR := TEMP_DIR rt; join := join rt;
     stamp_input := stamp_input rt; stamp_output := stamp_output rt;
     os_writeFile := os_writeFile rt; os_exec := os_exec rt;
     os_readFile := os_readFile rt; os_unlink_denied := denied |}.

Definition is_unlink (ev : Ffmpeg.event) : bool :=
  match ev with EvUnlink _ => true | _ => false end.

(** The removals a log records, in order. *)
Definition unlinks (l : list Ffmpeg.event) : list Ffmpeg.event :=
  List.filter is_unlink l.

(** The [try] block of [convert] up to and including the read of the
    output file: everything that can throw. *)
Definition produce (ffmpegCommand : number → number → string → string → string)
    (rt : Runtime) (videoBuffer : Buffer) (options : option Options)
  : Ffmpeg.M Buffer :=
  let quality := default (Int 85) (options ≫= quality) in
  let fps := default (Int 30) (options ≫= fps) in
  Ffmpeg.bind (writeFile rt (inputPath rt) videoBuffer) (λ _,
  Ffmpeg.bind (Ffmpeg.emit (EvLog ("[ffmpeg] Converting MP4 to WebP: " +:+
                                   inputPath rt +:+ " -> " +:+ outputPath rt))) (λ _,
  Ffmpeg.bind (execAsync rt (ffmpegCommand quality fps (inputPath rt) (outputPath rt)))
    (λ stderr,
  Ffmpeg.bind (if includes stderr "Error"
               then Ffmpeg.throw (JsError ("FFmpeg conversion failed: " +:+ stderr))
               else Ffmpeg.ret tt) (λ _,
  readFile rt (outputPath rt))))).

(** What the [catch] block rethrows. *)
Definition rethrown (error : JsValue) : JsValue :=
  match error with
  | JsError message => JsError ("Failed to convert video to WebP: " +:+ message)
  | _ => error
  end.

(** The files left on disk and the completion of a run. *)
Definition leftovers {T} (r : Sys * completion T)
  : list (string * Buffer) * completion T :=
  (map_to_list (files r.1), r.2).

(** A system on which ffmpeg leaves a truncated output file and exits
    with a non-zero status. *)
Definition rt_ffmpeg_fails : Runtime :=
  {| TEMP_DIR := "/tmp/render";
     join := λ dir file, dir +:+ "/" +:+ file;
     stamp_input := "1700000000000-k3x9q";
     stamp_output := "1700000000001-p0d2m";
     os_writeFile := λ path data fs, (<[path := data]> fs, Normal tt);
     os_exec := λ command fs,
       (<["/tmp/render/output-1700000000001-p0d2m.webp" := [Byte.x52]]> fs,
        Abrupt (JsError "Command failed: ffmpeg exited with code 1"));
     os_readFile := λ path data, Normal data;
     os_unlink_denied := λ path, None |}.

Definition empty_disk : Sys := {| files := ∅; log := [] |}.

(** The rational with the integral value [z], and the one with the value
    [n/10]. *)
Definition of_Z (z : Z) : Qcanon.Qc := Qcanon.Q2Qc (QArith_base.inject_Z z).

Definition tenths (n : Z) : number :=
  Finite (Qcanon.Q2Qc (QArith_base.Qmake n 10)).

(** Order of a number against integer bounds. *)
Definition below (q : number) (bound : Z) : Prop :=
  match q with
  | Finite x => Qcanon.Qclt x (of_Z bound)
  | NegInfinity => True
  | _ => False
  end.

Definition above (q : number) (bound : Z) : Prop :=
  match q with
  | Finite x => Qcanon.Qclt (of_Z bound) x
  | PosInfinity => True
  | _ => False
  end.

Definition within (q : number) (lo hi : Z) : Prop :=
  match q with
  | Finite x => Qcanon.Qcle (of_Z lo) x ∧ Qcanon.Qcle x (of_Z hi)
  | _ => False
  end.

(** The command line of the clamping revision around its quality field. *)
Definition clamped_command (fps : number) (inputPath outputPath : string)
    (shown_quality : string) : string :=
  "ffmpeg -i " +:+ dquote +:+ inputPath +:+ dquote +:+
  " -vf " +:+ dquote +:+ "fps=" +:+ toString fps +:+ dquote +:+
  " -c:v libwebp -q:v " +:+ shown_quality +:+
  " -compression_level 6 -lossless 0 -loop 0 -an -vsync 0 -pix_fmt yuv420p -y " +:+
  dquote +:+ outputPath +:+ dquote.

(** The command line of the other revision around its quality field. *)
Definition plain_command (fps : number) (inputPath outputPath : string)
    (shown_quality : string) : string :=
  "ffmpeg -i " +:+ dquote +:+ inputPath +:+ dquote +:+
  " -vf " +:+ dquote +:+ "fps=" +:+ toString fps +:+ dquote +:+
  " -c:v libwebp -quality " +:+ shown_quality +:+
  " -compression_level 6 -method 6 -loop 0 -an -vsync 0 -pix_fmt yuv420p -y " +:+
  dquote +:+ outputPath +:+ dquote.

(** A system on which everything works: ffmpeg writes the output file. *)
Definition rt_ok : Runtime :=
  {| TEMP_DIR := "/tmp/render";
     join := λ dir file, dir +:+ "/" +:+ file;
     stamp_input := "1700000000000-k3x9q";
     stamp_output := "1700000000001-p0d2m";
     os_writeFile := λ path data fs, (<[path := data]> fs, Normal tt);
     os_exec := λ command fs,
       (<["/tmp/render/output-1700000000001-p0d2m.webp" :=
            [Byte.x52; Byte.x49; Byte.x46; Byte.x46]]> fs,
        Normal "frame=  240 fps= 60");
     os_readFile := λ path data, Normal data;
     os_unlink_denied := λ path, None |}.

(** [rt_ok] with another behaviour of the subprocess. *)
Definition rt_exec
    (exec : string → gmap string Buffer → gmap string Buffer * completion string)
  : Runtime :=
  {| TEMP_DIR := TEMP_DIR rt_ok; join := join rt_ok;
     stamp_input := stamp_input rt_ok; stamp_output := stamp_output rt_ok;
     os_writeFile := os_writeFile rt_ok; os_exec := exec;
     os_readFile := os_readFile rt_ok;
     os_unlink_denied := os_unlink_denied rt_ok |}.

(** ffmpeg writes an output file but reports an error on stderr. *)
Definition rt_error_pattern : Runtime :=
  rt_exec (λ command fs,
    (<["/tmp/render/output-1700000000001-p0d2m.webp" := [Byte.x52]]> fs,
     Normal "Error while decoding stream #0:0")).

(** ffmpeg exits normally without writing the output file. *)
Definition rt_no_output : Runtime :=
  rt_exec (λ command fs, (fs, Normal "")).

Definition quality_only (q : number) : option Options :=
  Some {| quality := Some q; fps := None |}.

(** The two revisions, each with the command it builds. *)
Definition revisions
  : list ((Runtime → Buffer → option Options → Ffmpeg.M Buffer)
          * (number → number → string → string → string)) :=
  [(Clamped.convertVideoToWebP, Clamped.ffmpegCommand);
   (Plain.convertVideoToWebP, Plain.ffmpegCommand)].

Definition is_exec (ev : Ffmpeg.event) : bool :=
  match ev with EvExec _ => true | _ => false end.

(** The subprocess invocations a log records. *)
Definition execs (l : list Ffmpeg.event) : list Ffmpeg.event :=
  List.filter is_exec l.

(** [writeFile] changes no other file than the one it is given. *)
Definition writes_only_its_path (rt : Runtime) : Prop :=
  ∀ path data fs q, q ≠ path →
    (os_writeFile rt path data fs).1 !! q = fs !! q.

(** The subprocess changes no other file than the output file. *)
Definition exec_touches_only_output (rt : Runtime) : Prop :=
  ∀ command fs q, q ≠ outputPath rt →
    (os_exec rt command fs).1 !! q = fs !! q.

(** A disk holding one unrelated file. *)
Definition disk_with_keepsake : Sys :=
  {| files := {[ "/tmp/render/keep.txt" := [Byte.x6b] ]}; log := [] |}.

End FfmpegSpec.

Module PoolSpec.
Import WorkerPool.

(** Every active job is being executed by one of the [W] workers. *)
Definition pool_inv (W : nat) (p : Pool) : Prop :=
  length (workers p) = W
  ∧ ∀ id j, jobs p !! id = Some j → is_active j → Some id ∈ workers p.

End PoolSpec.

Module UiRoutesSpec.
Import UiRoutes.

(** The three cached files. *)
Inductive asset : Type := IndexHtml | AppJs | AppCss.

Definition getter (rt : Runtime) (a : asset) : Async string :=
  match a with
  | IndexHtml => getHtml rt
  | AppJs => getJs rt
  | AppCss => getCss rt
  end.

Definition cached (a : asset) (c : Cache) : option string :=
  match a with
  | IndexHtml => cachedHtml c
  | AppJs => cachedJs c
  | AppCss => cachedCss c
  end.

Definition file_of (rt : Runtime) (a : asset) : string :=
  join rt (UI_DIR rt)
    match a with
    | IndexHtml => "index.html"
    | AppJs => "app.js"
    | AppCss => "app.css"
    end.

(** The path under which a file is requested, and the response that
    carries [body] for it. *)
Definition route_of (a : asset) : string :=
  match a with
  | IndexHtml => "/"
  | AppJs => "/assets/app.js"
  | AppCss => "/assets/app.css"
  end.

Definition response_of (a : asset) (body : string) : Response :=
  match a with
  | IndexHtml => Html body
  | AppJs =>
      Text body 200
        [("Content-Type", "application/javascript; charset=utf-8");
         ("Cache-Control", "no-store")]
  | AppCss =>
      Text body 200
        [("Content-Type", "text/css; charset=utf-8");
         ("Cache-Control", "no-store")]
  end.

(** No request for file [a] is waiting for a read. *)
Definition no_read_pending (a : asset) (sv : Server) : Prop :=
  ∀ read, suspended sv !! read ≠ Some (route_of a).

(** The process after a history of requests and settled reads, in any
    interleaving. *)
Fixpoint serve (rt : Runtime) (history : list step) (sv : Server) : Server :=
  match history with
  | [] => sv
  | st :: rest => serve rt rest (turn rt st sv)
  end.

Definition rt_demo : Runtime :=
  {| UI_DIR := "/app/ui"; join := λ dir file, dir +:+ "/" +:+ file |}.

Definition fresh_process : Server :=
  {| sys := {| cache := empty_cache; reads := [] |};
     suspended := ∅; responses := [] |}.

End UiRoutesSpec.

Module CommitGraphSpec.
Import CommitGraphCard.

(** Settings with which a year of 53 weeks gets squares of 12 pixels. *)
Definition settings_demo : Settings :=
  {| outerPadding := 20; padding := 30; gap := 3 |}.

(** The five colours of a palette. *)
Definition palette (graphColors : GraphColors) : list string :=
  [empty graphColors; level1 graphColors; level2 graphColors;
   level3 graphColors; level4 graphColors].

End CommitGraphSpec.

(** * Proofs *)

Import Startup StartupSpec.

(** ** The retry loop *)

Section RetryLoop.
Context {T : Type}.
Variables (fn : nat → settle T) (nm : string) (A : nat) (D Tm : N).

Lemma schedule_app (t1 t2 : list event) :
  schedule (t1 ++ t2) = schedule t1 ++ schedule t2.
Proof. apply List.filter_app. Qed.

Lemma retry_loop_unfold a r le :
  retry_loop fn nm A D Tm a (S r) le
  = try_catch
      ((if 1 <? a
        then emit (EvLog ("↻ " +:+ nm +:+ ": retry " +:+ pretty a +:+ "/" +:+
                          pretty A +:+ "..."))
        else ret tt) ;;;
       emit (EvAttempt nm a Tm) ;;;
       (([], withTimeout (fn a) Tm nm) : M T))
      (λ err,
         emit (EvError ("✗ " +:+ nm +:+ " attempt " +:+ pretty a +:+ "/" +:+
                        pretty A +:+ " failed: " +:+ formatError err)) ;;;
         (if a <? A then sleep D else ret tt) ;;;
         retry_loop fn nm A D Tm (S a) r err).
Proof. reflexivity. Qed.

Lemma retry_loop_resolved a r le v :
  fn a = Resolves v →
  retry_loop fn nm A D Tm a (S r) le
  = ((if 1 <? a
      then [EvLog ("↻ " +:+ nm +:+ ": retry " +:+ pretty a +:+ "/" +:+
                   pretty A +:+ "...")]
      else []) ++ [EvAttempt nm a Tm], Normal v).
Proof.
  intros Hv. rewrite retry_loop_unfold. rewrite Hv.
  destruct (1 <? a); reflexivity.
Qed.

Lemma retry_loop_failed a r le e :
  withTimeout (fn a) Tm nm = Abrupt e →
  retry_loop fn nm A D Tm a (S r) le
  = ((if 1 <? a
      then [EvLog ("↻ " +:+ nm +:+ ": retry " +:+ pretty a +:+ "/" +:+
                   pretty A +:+ "...")]
      else []) ++
     [EvAttempt nm a Tm;
      EvError ("✗ " +:+ nm +:+ " attempt " +:+ pretty a +:+ "/" +:+
               pretty A +:+ " failed: " +:+ formatError e)] ++
     (if a <? A then [EvSleep D] else []) ++
     trace (retry_loop fn nm A D Tm (S a) r e),
     outcome (retry_loop fn nm A D Tm (S a) r e)).
Proof.
  intros He. rewrite retry_loop_unfold. rewrite He.
  destruct (1 <? a), (a <? A);
    cbv beta iota delta [try_catch bind emit ret sleep];
    destruct (retry_loop fn nm A D Tm (S a) r e) as [t c]; reflexivity.
Qed.

Lemma attempt_fails_error a :
  attempt_fails (fn a) = true →
  withTimeout (fn a) Tm nm = Abrupt (attempt_error (fn a) Tm nm).
Proof. unfold attempt_error. destruct (fn a); cbn; congruence. Qed.

Lemma schedule_resolved a r le v :
  fn a = Resolves v →
  schedule (trace (retry_loop fn nm A D Tm a (S r) le)) = [EvAttempt nm a Tm]
  ∧ outcome (retry_loop fn nm A D Tm a (S r) le) = Normal v.
Proof.
  intros Hv. rewrite (retry_loop_resolved _ _ _ _ Hv). unfold trace, outcome.
  cbn [fst snd]. rewrite schedule_app. destruct (1 <? a); auto.
Qed.

Lemma schedule_failed a r le :
  attempt_fails (fn a) = true →
  schedule (trace (retry_loop fn nm A D Tm a (S r) le))
  = EvAttempt nm a Tm ::
    (if a <? A then [EvSleep D] else []) ++
    schedule (trace (retry_loop fn nm A D Tm (S a) r (attempt_error (fn a) Tm nm)))
  ∧ outcome (retry_loop fn nm A D Tm a (S r) le)
    = outcome (retry_loop fn nm A D Tm (S a) r (attempt_error (fn a) Tm nm)).
Proof.
  intros Hf. rewrite (retry_loop_failed _ _ _ _ (attempt_fails_error _ Hf)).
  unfold trace at 1, outcome at 1. cbn [fst snd]. split; [|done].
  rewrite !schedule_app. destruct (1 <? a), (a <? A); reflexivity.
Qed.

Lemma plan_cons first count :
  plan nm Tm D first (S count)
  = EvAttempt nm first Tm ::
    (if count is 0 then [] else [EvSleep D]) ++ plan nm Tm D (S first) count.
Proof. unfold plan. destruct count; reflexivity. Qed.

(** Every attempt from [a] on fails: the loop makes all [r] remaining
    attempts and raises the aggregated error. *)
Lemma retry_loop_exhausted r : ∀ a le,
  a + r = S A →
  (∀ j, a ≤ j ≤ A → attempt_fails (fn j) = true) →
  outcome (retry_loop fn nm A D Tm a r le)
  = Abrupt (JsError (exhausted_text nm A
      (if r is 0 then le else attempt_error (fn A) Tm nm)))
  ∧ schedule (trace (retry_loop fn nm A D Tm a r le)) = plan nm Tm D a r.
Proof.
  induction r as [|r IH]; intros a le Har Hall.
  - split; reflexivity.
  - assert (Hfa : attempt_fails (fn a) = true) by (apply Hall; lia).
    destruct (schedule_failed a r le Hfa) as [Hs Ho].
    destruct (IH (S a) (attempt_error (fn a) Tm nm)) as [IHo IHs];
      [lia | intros j Hj; apply Hall; lia |].
    rewrite Ho, Hs, IHo, IHs, plan_cons. split.
    + destruct r; [|done]. by replace a with A by lia.
    + destruct r.
      * replace (a <? A) with false by (symmetry; apply Nat.ltb_ge; lia). done.
      * replace (a <? A) with true by (symmetry; apply Nat.ltb_lt; lia). done.
Qed.

(** Attempt [k] is the first one that succeeds: the loop stops there. *)
Lemma retry_loop_succeeds r : ∀ a le k v,
  a + r = S A → a ≤ k ≤ A →
  fn k = Resolves v →
  (∀ j, a ≤ j < k → attempt_fails (fn j) = true) →
  outcome (retry_loop fn nm A D Tm a r le) = Normal v
  ∧ schedule (trace (retry_loop fn nm A D Tm a r le)) = plan nm Tm D a (S k - a).
Proof.
  induction r as [|r IH]; intros a le k v Har Hk Hv Hbefore; [lia|].
  destruct (decide (a = k)) as [->|Hne].
  - destruct (schedule_resolved k r le v Hv) as [Hs Ho].
    rewrite Hs, Ho. replace (S k - k) with 1 by lia. done.
  - assert (Hfa : attempt_fails (fn a) = true) by (apply Hbefore; lia).
    destruct (schedule_failed a r le Hfa) as [Hs Ho].
    destruct (IH (S a) (attempt_error (fn a) Tm nm) k v) as [IHo IHs];
      [lia | lia | done | intros j Hj; apply Hbefore; lia |].
    rewrite Ho, Hs, IHo, IHs. split; [done|].
    replace (S k - a) with (S (S k - S a)) by lia. rewrite plan_cons.
    replace (a <? A) with true by (symmetry; apply Nat.ltb_lt; lia).
    destruct (S k - S a) eqn:E; [lia|done].
Qed.

End RetryLoop.

(** ** The retry/timeout combinator *)

(** The first attempt whose operation resolves ends the run. *)
Lemma withRetry_first_success {T} (fn : nat → settle T) (nm : string)
    (A : nat) (D Tm : N) (k : nat) (v : T) :
  let run := withRetry fn {| name := nm; attempts := Some A;
                             delayMs := Some D; timeoutMs := Some Tm |} in
  1 ≤ k ≤ A → fn k = Resolves v →
  (∀ j, 1 ≤ j < k → attempt_fails (fn j) = true) →
  outcome run = Normal v ∧ schedule (trace run) = plan nm Tm D 1 k.
Proof.
  cbn zeta. unfold withRetry.
  cbn [name attempts delayMs timeoutMs from_option id].
  intros Hk Hv Hbefore.
  destruct (retry_loop_succeeds fn nm A D Tm A 1 JsUndefined k v)
    as [Ho Hs]; [lia|lia|done|done|].
  rewrite Ho, Hs. by replace (S k - 1) with k by lia.
Qed.

(** A run none of whose attempts passes makes them all and raises the
    aggregated error. *)
Lemma withRetry_all_fail {T} (fn : nat → settle T) (nm : string)
    (A : nat) (D Tm : N) :
  let run := withRetry fn {| name := nm; attempts := Some A;
                             delayMs := Some D; timeoutMs := Some Tm |} in
  (∀ j, 1 ≤ j ≤ A → attempt_fails (fn j) = true) →
  outcome run
  = Abrupt (JsError (exhausted_text nm A
      (if A is 0 then JsUndefined else attempt_error (fn A) Tm nm)))
  ∧ schedule (trace run) = plan nm Tm D 1 A.
Proof.
  cbn zeta. unfold withRetry.
  cbn [name attempts delayMs timeoutMs from_option id].
  intros Hall.
  destruct (retry_loop_exhausted fn nm A D Tm A 1 JsUndefined) as [Ho Hs];
    [lia|done|].
  by rewrite Ho, Hs.
Qed.









(** ** The readiness endpoint *)

(** C7: [GET /ready] invokes each of the three probe actions exactly
    once, with deadlines 1500, 4000 and 4000 ms and without sleeping,
    whatever the earlier probes did.  The Redis flag tells whether the
    single ping was answered in time with precisely [PONG], the other two
    flags whether the single call resolved in time.  The answer is
    [ready] with status 200 if all three flags are set and [degraded]
    with status 503 otherwise, so the status is a 2xx one exactly when
    all three dependencies passed. *)
Theorem ready_contract (env : Env) (w : World) :
  let redis_ok := pong (redis_ping w 1) in
  let minio_ok := passes (ensureBucket w 1) in
  let github_ok := passes (checkGitHubAppAuth w 1) in
  let all_ok := redis_ok && minio_ok && github_ok in
  schedule (trace (Health.ready env w))
  = [EvAttempt (redis_name env) 1 1500; EvAttempt (minio_name env) 1 4000;
     EvAttempt (github_name env) 1 4000]
  ∧ outcome (Health.ready env w)
    = Normal {| Health.status := if all_ok then "ready" else "degraded";
                Health.checks := {| Health.server := true;
                                    Health.redis := redis_ok;
                                    Health.minio := minio_ok;
                                    Health.github := github_ok |};
                Health.code := if all_ok then 200 else 503 |}
  ∧ is_2xx (if all_ok then 200 else 503) = all_ok
  ∧ (redis_ok = true ↔ redis_ping w 1 = Resolves "PONG")
  ∧ (minio_ok = true ↔ ensureBucket w 1 = Resolves tt)
  ∧ (github_ok = true ↔ checkGitHubAppAuth w 1 = Resolves tt).
Proof.
  cbn zeta. unfold Health.ready, Health.probe, checkRedisReachable,
    checkMinioReachable, checkGitHubAppReachable, withRetry, passes, pong,
    redis_probe.
  cbn [name attempts delayMs timeoutMs opt_attempts opt_delayMs opt_timeoutMs
       from_option id].
  rewrite !retry_loop_unfold.
  destruct (redis_ping w 1) as [reply|e1|];
    [destruct (decide (reply = "PONG")) as [->|Hne];
     [rewrite bool_decide_eq_true_2 by done
     |rewrite bool_decide_eq_false_2 by done]| |];
    destruct (ensureBucket w 1) as [[]|e2|],
      (checkGitHubAppAuth w 1) as [[]|e3|];
    repeat split; try reflexivity; try discriminate; try congruence.
Qed.

(** ** Startup checks *)

Lemma withRetry_passes (fn : nat → settle unit) nm A D Tm k :
  first_pass fn k → k ≤ A →
  outcome (withRetry fn {| name := nm; attempts := Some A;
                           delayMs := Some D; timeoutMs := Some Tm |})
  = Normal tt
  ∧ schedule (trace (withRetry fn {| name := nm; attempts := Some A;
                                     delayMs := Some D; timeoutMs := Some Tm |}))
    = plan nm Tm D 1 k.
Proof.
  intros (Hk & Hp & Hbefore) HkA.
  destruct (fn k) as [[]| |] eqn:Hfk; try discriminate.
  apply (withRetry_first_success fn nm A D Tm k tt); [lia|done|done].
Qed.

Lemma withRetry_never (fn : nat → settle unit) nm A D Tm :
  1 ≤ A → never_passes fn A →
  outcome (withRetry fn {| name := nm; attempts := Some A;
                           delayMs := Some D; timeoutMs := Some Tm |})
  = Abrupt (JsError (exhausted_text nm A (attempt_error (fn A) Tm nm)))
  ∧ schedule (trace (withRetry fn {| name := nm; attempts := Some A;
                                     delayMs := Some D; timeoutMs := Some Tm |}))
    = plan nm Tm D 1 A.
Proof.
  intros HA Hall.
  destruct (withRetry_all_fail fn nm A D Tm Hall) as [Ho Hs].
  destruct A; [lia|]. done.
Qed.

Lemma checkRedisReachable_default env w :
  checkRedisReachable env w no_opts
  = withRetry (redis_probe w)
      {| name := redis_name env; attempts := Some 10;
         delayMs := Some 1500%N; timeoutMs := Some 5000%N |}.
Proof. reflexivity. Qed.

Lemma checkMinioReachable_default env w :
  checkMinioReachable env w no_opts
  = withRetry (ensureBucket w)
      {| name := minio_name env; attempts := Some 10;
         delayMs := Some 2000%N; timeoutMs := Some 15000%N |}.
Proof. reflexivity. Qed.

Lemma checkGitHubAppReachable_default env w :
  checkGitHubAppReachable env w no_opts
  = withRetry (checkGitHubAppAuth w)
      {| name := github_name env; attempts := Some 5;
         delayMs := Some 2000%N; timeoutMs := Some 15000%N |}.
Proof. reflexivity. Qed.

(** The startup sequence with its console output stripped: each check
    runs only if all earlier ones completed normally, and the first
    abrupt completion is the completion of the whole. *)
Lemma runStartupChecks_stages env w role :
  validateEnv w = Normal tt →
  let r := checkRedisReachable env w no_opts in
  let m := checkMinioReachable env w no_opts in
  let g := checkGitHubAppReachable env w no_opts in
  let u := checkRendererWarmup w in
  outcome (runStartupChecks env w role)
  = match outcome r, outcome m, outcome g with
    | Abrupt e, _, _ => Abrupt e
    | Normal _, Abrupt e, _ => Abrupt e
    | Normal _, Normal _, Abrupt e => Abrupt e
    | Normal _, Normal _, Normal _ =>
        match role with
        | api => Normal tt
        | worker => outcome u
        end
    end
  ∧ schedule (trace (runStartupChecks env w role))
    = schedule (trace r) ++
      match outcome r, outcome m, outcome g with
      | Abrupt _, _, _ => []
      | Normal _, Abrupt _, _ => schedule (trace m)
      | Normal _, Normal _, Abrupt _ => schedule (trace m) ++ schedule (trace g)
      | Normal _, Normal _, Normal _ =>
          schedule (trace m) ++ schedule (trace g) ++
          match role with
          | api => []
          | worker => schedule (trace u)
          end
      end.
Proof.
  intros Hvalid. unfold runStartupChecks. rewrite Hvalid.
  generalize (checkRedisReachable env w no_opts)
    (checkMinioReachable env w no_opts)
    (checkGitHubAppReachable env w no_opts) (checkRendererWarmup w).
  intros [t1 [[]|e1]] [t2 [[]|e2]] [t3 [[]|e3]] [t4 [[]|e4]];
    destruct role; cbn; unfold schedule;
    repeat first [rewrite List.filter_app
                 | progress cbn [List.filter is_schedule app]];
    rewrite ?app_nil_r; done.
Qed.

(** C8: [runStartupChecks], once the environment validates, runs the
    Redis, MinIO and GitHub checks in this order, then the renderer
    warmup if and only if the role is [worker].  Redis gets up to 10
    attempts, 1500 ms apart, each with a 5000 ms deadline; MinIO 10, 2000
    and 15000; GitHub 5, 2000 and 15000; the warmup 3, 2000 and 120000.
    A check none of whose attempts passes ends the startup with that
    check's aggregated error and nothing after it is invoked. *)
Theorem runStartupChecks_contract (env : Env) (w : World) (role : ServiceRole) :
  validateEnv w = Normal tt →
  let run := runStartupChecks env w role in
  let redis_plan := plan (redis_name env) 5000 1500 1 in
  let minio_plan := plan (minio_name env) 15000 2000 1 in
  let github_plan := plan (github_name env) 15000 2000 1 in
  let warmup_plan := plan warmup_name 120000 2000 1 in
  (never_passes (redis_probe w) 10 →
     outcome run
     = Abrupt (JsError (exhausted_text (redis_name env) 10
         (attempt_error (redis_probe w 10) 5000 (redis_name env))))
     ∧ schedule (trace run) = redis_plan 10)
  ∧ (∀ k1, first_pass (redis_probe w) k1 → k1 ≤ 10 →
     (never_passes (ensureBucket w) 10 →
        outcome run
        = Abrupt (JsError (exhausted_text (minio_name env) 10
            (attempt_error (ensureBucket w 10) 15000 (minio_name env))))
        ∧ schedule (trace run) = redis_plan k1 ++ minio_plan 10)
     ∧ (∀ k2, first_pass (ensureBucket w) k2 → k2 ≤ 10 →
        (never_passes (checkGitHubAppAuth w) 5 →
           outcome run
           = Abrupt (JsError (exhausted_text (github_name env) 5
               (attempt_error (checkGitHubAppAuth w 5) 15000 (github_name env))))
           ∧ schedule (trace run)
             = redis_plan k1 ++ minio_plan k2 ++ github_plan 5)
        ∧ (∀ k3, first_pass (checkGitHubAppAuth w) k3 → k3 ≤ 5 →
           (role = api →
              outcome run = Normal tt
              ∧ schedule (trace run)
                = redis_plan k1 ++ minio_plan k2 ++ github_plan k3)
           ∧ (role = worker →
              (never_passes (warmupBundle w) 3 →
                 outcome run
                 = Abrupt (JsError (exhausted_text warmup_name 3
                     (attempt_error (warmupBundle w 3) 120000 warmup_name)))
                 ∧ schedule (trace run)
                   = redis_plan k1 ++ minio_plan k2 ++ github_plan k3 ++
                     warmup_plan 3)
              ∧ (∀ k4, first_pass (warmupBundle w) k4 → k4 ≤ 3 →
                 outcome run = Normal tt
                 ∧ schedule (trace run)
                   = redis_plan k1 ++ minio_plan k2 ++ github_plan k3 ++
                     warmup_plan k4))))).
Proof.
  intros Hvalid run redis_plan minio_plan github_plan warmup_plan.
  destruct (runStartupChecks_stages env w role Hvalid) as [Ho Hs].
  subst run. rewrite Ho, Hs. clear Ho Hs.
  rewrite checkRedisReachable_default, checkMinioReachable_default,
    checkGitHubAppReachable_default. unfold checkRendererWarmup.
  split.
  { intros H1.
    destruct (withRetry_never _ (redis_name env) 10 1500 5000 ltac:(lia) H1)
      as [-> ->].
    by rewrite app_nil_r. }
  intros k1 P1 L1.
  destruct (withRetry_passes _ (redis_name env) 10 1500 5000 k1 P1 L1)
    as [-> ->].
  split.
  { intros H2.
    destruct (withRetry_never _ (minio_name env) 10 2000 15000 ltac:(lia) H2)
      as [-> ->].
    done. }
  intros k2 P2 L2.
  destruct (withRetry_passes _ (minio_name env) 10 2000 15000 k2 P2 L2)
    as [-> ->].
  split.
  { intros H3.
    destruct (withRetry_never _ (github_name env) 5 2000 15000 ltac:(lia) H3)
      as [-> ->].
    done. }
  intros k3 P3 L3.
  destruct (withRetry_passes _ (github_name env) 5 2000 15000 k3 P3 L3)
    as [-> ->].
  split.
  { intros ->. by rewrite app_nil_r. }
  intros ->. split.
  { intros H4.
    destruct (withRetry_never _ warmup_name 3 2000 120000 ltac:(lia) H4)
      as [-> ->].
    done. }
  intros k4 P4 L4.
  destruct (withRetry_passes _ warmup_name 3 2000 120000 k4 P4 L4) as [-> ->].
  done.
Qed.

Lemma runStartupChecks_contract_witness :
  outcome (runStartupChecks env_demo world_demo worker) = Normal tt
  ∧ schedule (trace (runStartupChecks env_demo world_demo worker))
    = [EvAttempt "Redis reachable (REDIS_URL=redis://cache:6379)" 1 5000;
       EvSleep 1500;
       EvAttempt "Redis reachable (REDIS_URL=redis://cache:6379)" 2 5000;
       EvAttempt "MinIO reachable (endpoint=minio:9000, bucket=renders)" 1 15000;
       EvAttempt "GitHub reachable + App auth valid (appId=42)" 1 15000;
       EvAttempt "Remotion bundle warmup" 1 120000].
Proof.
  pose proof (runStartupChecks_contract env_demo world_demo worker eq_refl) as H.
  cbn zeta in H. destruct H as [_ H].
  destruct (H 2) as [_ H2].
  { split; [lia|]. split; [reflexivity|].
    intros j Hj. assert (j = 1) as -> by lia. reflexivity. }
  { lia. }
  destruct (H2 1) as [_ H3].
  { split; [lia|]. split; [reflexivity|]. intros j Hj. lia. }
  { lia. }
  destruct (H3 1) as [_ H4].
  { split; [lia|]. split; [reflexivity|]. intros j Hj. lia. }
  { lia. }
  destruct (H4 eq_refl) as [_ H5].
  apply (H5 1).
  - split; [lia|]. split; [reflexivity|]. intros j Hj. lia.
  - lia.
Defined.

(** ** The shared browser handle *)

Module BrowserProofs.
Import RemotionBrowser.

Lemma settle_promise_fields p o st :
  browserPromise (settle_promise p o st) = browserPromise st
  ∧ launches (settle_promise p o st) = launches st
  ∧ length (promises (settle_promise p o st)) = length (promises st).
Proof.
  unfold settle_promise. destruct (promises st !! p) as [[]|]; cbn;
    rewrite ?length_insert; done.
Qed.

(** Once a promise is cached, no history of acquisitions and settlements
    starts another engine or hands out another promise. *)
Lemma run_cached (h : list step) : ∀ st p,
  browserPromise st = Some p →
  launches (run h st).2 = launches st
  ∧ browserPromise (run h st).2 = Some p
  ∧ length (promises (run h st).2) = length (promises st)
  ∧ ∀ q, q ∈ (run h st).1 → q = p.
Proof.
  induction h as [|[options|o] h IH]; intros st p Hp; cbn [run].
  - repeat split; try done. intros q Hq. cbn in Hq. set_solver.
  - unfold getSharedRemotionBrowser. rewrite Hp.
    destruct (IH st p Hp) as (Hl & Hb & Hn & Hps).
    destruct (run h st) as [ps st2]. cbn [fst snd] in *.
    repeat split; try done. intros q Hq.
    apply elem_of_cons in Hq as [->|Hq]; auto.
  - rewrite Hp.
    destruct (settle_promise_fields p o st) as (Hb' & Hl' & Hn').
    destruct (IH (settle_promise p o st) p) as (Hl & Hb & Hn & Hps);
      [congruence|].
    rewrite Hl, Hb, Hn. repeat split; try done; congruence.
Qed.

Lemma acquire_fresh options st :
  browserPromise st = None →
  (getSharedRemotionBrowser options st).1 = length (promises st)
  ∧ browserPromise (getSharedRemotionBrowser options st).2
    = Some (length (promises st))
  ∧ length (launches (getSharedRemotionBrowser options st).2)
    = S (length (launches st))
  ∧ promises (getSharedRemotionBrowser options st).2
    = promises st ++ [StillPending].
Proof.
  intros Hb. unfold getSharedRemotionBrowser, openBrowser. rewrite Hb.
  cbn. rewrite length_app. cbn. repeat split; try done. lia.
Qed.

Lemma run_uninitialized (h : list step) : ∀ st,
  browserPromise st = None →
  length (launches (run h st).2) ≤ S (length (launches st))
  ∧ (∀ q, q ∈ (run h st).1 → q = length (promises st))
  ∧ ((run h st).1 ≠ [] →
       length (launches (run h st).2) = S (length (launches st))
       ∧ browserPromise (run h st).2 = Some (length (promises st))
       ∧ length (promises (run h st).2) = S (length (promises st))).
Proof.
  induction h as [|[options|o] h IH]; intros st Hb; cbn [run].
  - cbn. split; [lia|]. split; [set_solver|done].
  - destruct (acquire_fresh options st Hb) as (Hp & Hb1 & Hl1 & Hps1).
    destruct (getSharedRemotionBrowser options st) as [p st1].
    cbn [fst snd] in *. subst p.
    destruct (run_cached h st1 _ Hb1) as (Hl & Hb2 & Hn & Hq).
    destruct (run h st1) as [ps st2]. cbn [fst snd] in *.
    rewrite Hl, Hl1, Hn, Hps1, length_app. cbn.
    split; [lia|]. split.
    + intros q Hin. apply elem_of_cons in Hin as [->|Hin]; auto.
    + intros _. split; [done|]. split; [done|lia].
  - rewrite Hb. by apply IH.
Qed.

End BrowserProofs.

Import RemotionBrowser BrowserSpec.

(** C3: starting from the uninitialized handle, along any history of
    [getSharedRemotionBrowser] calls (with any options) and settlements
    of the engine start, [openBrowser] is called at most once, exactly
    once if there is a caller, and every caller receives one and the same
    promise; so whichever way that promise settles, each caller observes
    that very outcome. *)
Theorem getSharedRemotionBrowser_starts_once (h : list step) (st : State)
    (o : settle Browser) :
  browserPromise st = None →
  let '(ps, st') := run h st in
  length (launches st') ≤ S (length (launches st))
  ∧ (ps ≠ [] → length (launches st') = S (length (launches st)))
  ∧ (∀ p q, p ∈ ps → q ∈ ps → p = q)
  ∧ (∀ p, p ∈ ps → observe p st' = StillPending →
          observe p (settle_promise p o st') = o).
Proof.
  intros Hb.
  destruct (BrowserProofs.run_uninitialized h st Hb) as (Hl & Hq & Hne).
  destruct (run h st) as [ps st']. cbn [fst snd] in *.
  split; [done|]. split; [intros H; by apply Hne|]. split.
  - intros p q Hp Hq'. rewrite (Hq p Hp), (Hq q Hq'). done.
  - intros p Hp Hpend.
    assert (ps ≠ []) as Hps by (intros ->; set_solver).
    destruct (Hne Hps) as (_ & _ & Hlen).
    rewrite (Hq p Hp) in *. unfold observe, settle_promise in *.
    destruct (promises st' !! length (promises st)) as [[]|] eqn:E;
      cbn in Hpend; try done.
    + cbn. rewrite list_lookup_insert_eq; [done|lia].
    + apply lookup_ge_None in E. lia.
Qed.

Lemma getSharedRemotionBrowser_starts_once_witness :
  let '(ps, st') :=
    run [Acquire no_options;
         Acquire {| chromiumOptions := Some "--no-sandbox";
                    browserExecutable := Some "/usr/bin/chromium" |};
         Acquire no_options] initial in
  length (launches st') ≤ 1
  ∧ (ps ≠ [] → length (launches st') = 1)
  ∧ (∀ p q, p ∈ ps → q ∈ ps → p = q)
  ∧ (∀ p, p ∈ ps → observe p st' = StillPending →
          observe p (settle_promise p (Resolves 1) st') = Resolves 1).
Proof.
  apply (getSharedRemotionBrowser_starts_once
           [Acquire no_options;
            Acquire {| chromiumOptions := Some "--no-sandbox";
                       browserExecutable := Some "/usr/bin/chromium" |};
            Acquire no_options] initial (Resolves 1)).
  reflexivity.
Defined.

(** C4, as stated, fails: after the engine start has failed the handle
    still caches the rejected promise, and the next
    [getSharedRemotionBrowser] hands out that promise again without
    calling [openBrowser] a second time. *)
Lemma failed_start_is_not_reset :
  browserPromise after_failed_start = Some 0
  ∧ observe 0 after_failed_start = Rejects (JsError "Failed to launch")
  ∧ (getSharedRemotionBrowser no_options after_failed_start).1 = 0
  ∧ length (launches after_failed_start) = 1
  ∧ length (launches (getSharedRemotionBrowser no_options after_failed_start).2)
    = 1.
Proof. repeat split. Qed.

(** C4, amended: if the engine start failed, the handle keeps the
    rejected promise: a later [getSharedRemotionBrowser] returns that
    same promise, whose outcome is still the old failure, starts no new
    engine and leaves the module state as it was. *)
Theorem failed_start_stays_cached (options : RemotionBrowserOptions)
    (st : State) (p : nat) (e : JsValue) :
  browserPromise st = Some p →
  observe p st = Rejects e →
  getSharedRemotionBrowser options st = (p, st)
  ∧ observe (getSharedRemotionBrowser options st).1
            (getSharedRemotionBrowser options st).2 = Rejects e
  ∧ launches (getSharedRemotionBrowser options st).2 = launches st
  ∧ ∀ o, settle_promise p o st = st.
Proof.
  intros Hb Ho. unfold getSharedRemotionBrowser. rewrite Hb. cbn [fst snd].
  repeat split; try done.
  intros o. unfold settle_promise, observe in *.
  destruct (promises st !! p) as [[]|]; cbn in Ho; congruence.
Qed.

Lemma failed_start_stays_cached_witness :
  getSharedRemotionBrowser no_options after_failed_start
  = (0, after_failed_start)
  ∧ observe (getSharedRemotionBrowser no_options after_failed_start).1
            (getSharedRemotionBrowser no_options after_failed_start).2
    = Rejects (JsError "Failed to launch")
  ∧ launches (getSharedRemotionBrowser no_options after_failed_start).2
    = launches after_failed_start
  ∧ ∀ o, settle_promise 0 o after_failed_start = after_failed_start.
Proof.
  apply (failed_start_stays_cached no_options after_failed_start 0
           (JsError "Failed to launch")); reflexivity.
Defined.

(** C10: with a rejected promise cached, [closeSharedRemotionBrowser]
    completes abruptly with the rejection reason, closes nothing and
    leaves the module state, cached promise included, untouched; a
    following [getSharedRemotionBrowser] therefore returns the same,
    already rejected promise. *)
Theorem close_after_failed_start (close : Browser → completion unit)
    (options : RemotionBrowserOptions) (st : State) (p : nat) (e : JsValue) :
  browserPromise st = Some p →
  observe p st = Rejects e →
  closeSharedRemotionBrowser close st = Finished (Abrupt e) st
  ∧ closeSharedRemotionBrowser close st ≠ Finished (Normal tt) st
  ∧ browserPromise st ≠ None
  ∧ getSharedRemotionBrowser options st = (p, st)
  ∧ observe (getSharedRemotionBrowser options st).1 st = Rejects e.
Proof.
  intros Hb Ho. unfold closeSharedRemotionBrowser, getSharedRemotionBrowser.
  rewrite Hb, Ho. cbn. repeat split; try done; congruence.
Qed.

Lemma close_after_failed_start_witness :
  closeSharedRemotionBrowser (λ _, Normal tt) after_failed_start
  = Finished (Abrupt (JsError "Failed to launch")) after_failed_start
  ∧ closeSharedRemotionBrowser (λ _, Normal tt) after_failed_start
    ≠ Finished (Normal tt) after_failed_start
  ∧ browserPromise after_failed_start ≠ None
  ∧ getSharedRemotionBrowser no_options after_failed_start
    = (0, after_failed_start)
  ∧ observe (getSharedRemotionBrowser no_options after_failed_start).1
            after_failed_start
    = Rejects (JsError "Failed to launch").
Proof.
  apply (close_after_failed_start (λ _, Normal tt) no_options
           after_failed_start 0 (JsError "Failed to launch")); reflexivity.
Defined.

(** ** The transcode stage *)

Import Ffmpeg FfmpegSpec.

Module FfmpegProofs.

Lemma unlink_files rt p s :
  files (unlink rt p s).1
  = if os_unlink_denied rt p is Some _ then files s else delete p (files s).
Proof.
  unfold unlink, Ffmpeg.bind, Ffmpeg.emit. cbn.
  destruct (os_unlink_denied rt p); [done|].
  destruct (files s !! p) eqn:E; [done|]. cbn.
  by rewrite delete_id.
Qed.

Lemma unlink_log rt p s : log (unlink rt p s).1 = log s ++ [EvUnlink p].
Proof.
  unfold unlink, Ffmpeg.bind, Ffmpeg.emit. cbn.
  destruct (os_unlink_denied rt p); [done|].
  by destruct (files s !! p).
Qed.

(** The state after the two removals that end every path. *)
Lemma cleanup_files rt s p :
  p ∈ [inputPath rt; outputPath rt] →
  os_unlink_denied rt p = None →
  files (unlink rt (outputPath rt) (unlink rt (inputPath rt) s).1).1 !! p = None.
Proof.
  intros Hp Hd. rewrite !unlink_files.
  apply elem_of_cons in Hp as [->|Hp].
  - rewrite Hd. destruct (os_unlink_denied rt (outputPath rt)).
    + apply lookup_delete_eq.
    + destruct (decide (outputPath rt = inputPath rt)) as [->|Hne].
      * apply lookup_delete_eq.
      * rewrite lookup_delete_ne by done. apply lookup_delete_eq.
  - apply list_elem_of_singleton in Hp as ->. rewrite Hd.
    apply lookup_delete_eq.
Qed.

Lemma cleanup_log rt s :
  log (unlink rt (outputPath rt) (unlink rt (inputPath rt) s).1).1
  = log s ++ [EvUnlink (inputPath rt); EvUnlink (outputPath rt)].
Proof. rewrite !unlink_log, <- app_assoc. done. Qed.

(** Both ways out of [convert] pass through the two removals. *)
Lemma convert_shape cmd rt buf options s :
  convert cmd rt buf options s
  = let '(s1, r) := produce cmd rt buf options s in
    let s2 := (unlink rt (outputPath rt) (unlink rt (inputPath rt) s1).1).1 in
    match r with
    | Normal webpBuffer =>
        ({| files := files s2;
            log := log s2 ++ [EvLog ("[ffmpeg] Conversion complete: " +:+
                                     pretty (length webpBuffer) +:+ " bytes")] |},
         Normal webpBuffer)
    | Abrupt e => (s2, Abrupt (rethrown e))
    end.
Proof.
  unfold convert, produce, Ffmpeg.try_catch, Ffmpeg.bind, writeFile, execAsync,
    readFile, Ffmpeg.emit, Ffmpeg.throw, Ffmpeg.ret, swallow, rethrown.
  cbn [files log].
  repeat case_match; simplify_eq; done.
Qed.

(** Nothing before the removals depends on how [unlink] behaves. *)
Lemma produce_unlink_independent cmd denied rt buf options s :
  produce cmd (with_unlink_denied denied rt) buf options s
  = produce cmd rt buf options s.
Proof. reflexivity. Qed.

Lemma produce_unlinks cmd rt buf options s :
  unlinks (log (produce cmd rt buf options s).1) = unlinks (log s).
Proof.
  unfold produce, writeFile, execAsync, readFile, Ffmpeg.bind, Ffmpeg.emit,
    Ffmpeg.throw, Ffmpeg.ret.
  cbn [files log].
  repeat case_match; simplify_eq; cbn [fst log]; unfold unlinks;
    repeat first [rewrite List.filter_app
                 | progress cbn [List.filter is_unlink app]];
    rewrite ?app_nil_r; done.
Qed.

Lemma convert_cleans_up cmd rt buf options s :
  let '(s', r) := convert cmd rt buf options s in
  (∀ p, p ∈ [inputPath rt; outputPath rt] →
        os_unlink_denied rt p = None → files s' !! p = None)
  ∧ unlinks (log s')
    = unlinks (log s) ++ [EvUnlink (inputPath rt); EvUnlink (outputPath rt)]
  ∧ ∀ denied, (convert cmd (with_unlink_denied denied rt) buf options s).2 = r.
Proof.
  rewrite convert_shape.
  pose proof (produce_unlinks cmd rt buf options s) as Hlog.
  assert (Hind : ∀ denied,
    (convert cmd (with_unlink_denied denied rt) buf options s).2
    = match (produce cmd rt buf options s).2 with
      | Normal webpBuffer => Normal webpBuffer
      | Abrupt e => Abrupt (rethrown e)
      end).
  { intros denied. rewrite convert_shape, produce_unlink_independent.
    destruct (produce cmd rt buf options s) as [s1 [webp|e]]; done. }
  destruct (produce cmd rt buf options s) as [s1 [webp|e]];
    cbn [fst snd] in *; cbn zeta.
  - split; [|split].
    + intros p Hp Hd. cbn [files]. by apply cleanup_files.
    + cbn [log]. unfold unlinks in *.
      rewrite List.filter_app, cleanup_log, List.filter_app, Hlog.
      cbn [List.filter is_unlink]. by rewrite app_nil_r.
    + done.
  - split; [|split].
    + intros p Hp Hd. by apply cleanup_files.
    + rewrite cleanup_log. unfold unlinks in *. rewrite List.filter_app, Hlog.
      done.
    + done.
Qed.

End FfmpegProofs.

(** C1: in both revisions and whatever the operating system and the
    subprocess do, [convertVideoToWebP] ends by attempting to remove the
    input file and then the output file, once each: on return neither
    file exists unless the system refused its removal, and how [unlink]
    behaves never changes the value returned or the error thrown. *)
Theorem convertVideoToWebP_removes_temporary_files
    (conv : Runtime → Buffer → option Options → Ffmpeg.M Buffer)
    (rt : Runtime) (videoBuffer : Buffer) (options : option Options) (s : Sys) :
  conv ∈ [Clamped.convertVideoToWebP; Plain.convertVideoToWebP] →
  let '(s', r) := conv rt videoBuffer options s in
  (∀ p, p ∈ [inputPath rt; outputPath rt] →
        os_unlink_denied rt p = None → files s' !! p = None)
  ∧ unlinks (log s')
    = unlinks (log s) ++ [EvUnlink (inputPath rt); EvUnlink (outputPath rt)]
  ∧ ∀ denied, (conv (with_unlink_denied denied rt) videoBuffer options s).2 = r.
Proof.
  intros Hconv. apply elem_of_cons in Hconv as [->|Hconv].
  - apply FfmpegProofs.convert_cleans_up.
  - apply list_elem_of_singleton in Hconv as ->.
    apply FfmpegProofs.convert_cleans_up.
Qed.

(** The four ways out of the call, one run each: success, failing
    subprocess, error text on stderr, no output file. *)
Example exit_paths_leave_no_files :
  leftovers (Clamped.convertVideoToWebP rt_ok [Byte.x00] None empty_disk)
  = ([], Normal [Byte.x52; Byte.x49; Byte.x46; Byte.x46])
  ∧ leftovers (Clamped.convertVideoToWebP rt_ffmpeg_fails [Byte.x00] None
                 empty_disk)
    = ([], Abrupt (JsError "Failed to convert video to WebP: Command failed: ffmpeg exited with code 1"))
  ∧ leftovers (Clamped.convertVideoToWebP rt_error_pattern [Byte.x00] None
                 empty_disk)
    = ([], Abrupt (JsError "Failed to convert video to WebP: FFmpeg conversion failed: Error while decoding stream #0:0"))
  ∧ leftovers (Clamped.convertVideoToWebP rt_no_output [Byte.x00] None
                 empty_disk)
    = ([], Abrupt (JsError "Failed to convert video to WebP: ENOENT: no such file or directory, open '/tmp/render/output-1700000000001-p0d2m.webp'")).
Proof. repeat split; vm_compute; reflexivity. Qed.

Lemma convertVideoToWebP_removes_temporary_files_witness :
  let '(s', r) :=
    Clamped.convertVideoToWebP rt_ffmpeg_fails [Byte.x00; Byte.x01] None
      empty_disk in
  files s' !! "/tmp/render/input-1700000000000-k3x9q.mp4" = None
  ∧ files s' !! "/tmp/render/output-1700000000001-p0d2m.webp" = None
  ∧ unlinks (log s')
    = [EvUnlink "/tmp/render/input-1700000000000-k3x9q.mp4";
       EvUnlink "/tmp/render/output-1700000000001-p0d2m.webp"]
  ∧ r = Abrupt (JsError "Failed to convert video to WebP: Command failed: ffmpeg exited with code 1").
Proof.
  pose proof (convertVideoToWebP_removes_temporary_files
                Clamped.convertVideoToWebP rt_ffmpeg_fails
                [Byte.x00; Byte.x01] None empty_disk
                (list_elem_of_here _ _)) as H.
  destruct (Clamped.convertVideoToWebP rt_ffmpeg_fails [Byte.x00; Byte.x01]
              None empty_disk) as [s' r] eqn:E.
  destruct H as (Hfiles & Hlog & Hres).
  split; [|split; [|split]].
  - apply Hfiles; [apply list_elem_of_here | reflexivity].
  - apply Hfiles;
      [apply list_elem_of_further, list_elem_of_here | reflexivity].
  - exact Hlog.
  - rewrite <- (Hres (λ _, None)). vm_compute. reflexivity.
Defined.

Lemma produce_exec cmd rt buf options s c :
  EvExec c ∈ log (produce cmd rt buf options s).1 →
  EvExec c ∈ log s
  ∨ c = cmd (default (Int 85) (options ≫= quality))
            (default (Int 30) (options ≫= fps)) (inputPath rt) (outputPath rt).
Proof.
  unfold produce, writeFile, execAsync, readFile, Ffmpeg.bind, Ffmpeg.emit,
    Ffmpeg.throw, Ffmpeg.ret.
  cbn [files log].
  repeat case_match; simplify_eq; cbn [fst log];
    rewrite ?elem_of_app, ?list_elem_of_singleton; naive_solver.
Qed.

Lemma convert_exec cmd rt buf options s c :
  EvExec c ∈ log (convert cmd rt buf options s).1 →
  EvExec c ∈ log s
  ∨ c = cmd (default (Int 85) (options ≫= quality))
            (default (Int 30) (options ≫= fps)) (inputPath rt) (outputPath rt).
Proof.
  rewrite FfmpegProofs.convert_shape.
  pose proof (produce_exec cmd rt buf options s c) as Hp.
  destruct (produce cmd rt buf options s) as [s1 [webp|e]];
    cbn [fst snd log] in *; cbn zeta;
    rewrite ?elem_of_app, FfmpegProofs.cleanup_log, ?elem_of_app;
    rewrite ?elem_of_cons, ?elem_of_nil; naive_solver.
Qed.

(** The text of some numbers: integers, fractions, and magnitudes that
    are printed with an exponent. *)
Lemma toString_examples :
  toString (Int 85) = "85"
  ∧ toString (Int (-3)) = "-3"
  ∧ toString (tenths 655) = "65.5"
  ∧ toString (tenths 599) = "59.9"
  ∧ toString (Finite (Qcanon.Q2Qc (QArith_base.Qmake 2997 100))) = "29.97"
  ∧ toString (Finite (Qcanon.Q2Qc (QArith_base.Qmake 1 3)))
    = "0.3333333333333333"
  ∧ toString (Int (10 ^ 20)) = "100000000000000000000"
  ∧ toString (Int (10 ^ 21)) = "1e+21"
  ∧ toString (Int (2 ^ 53 + 1)) = "9007199254740992"
  ∧ toString (Finite (Qcanon.Q2Qc (QArith_base.Qmake 1 10000000))) = "1e-7".
Proof. repeat split; vm_compute; reflexivity. Qed.

Lemma leb_le (x y : Qcanon.Qc) : leb x y = true ↔ Qcanon.Qcle x y.
Proof.
  unfold leb. rewrite Qcanon.Qcle_alt.
  destruct (Qcanon.Qccompare x y); split; congruence.
Qed.

Lemma leb_gt (x y : Qcanon.Qc) : leb x y = false ↔ Qcanon.Qclt y x.
Proof.
  unfold leb. pose proof (Qcanon.Qcgt_alt x y) as [H1 H2]. split.
  - intros E. apply H2. by destruct (Qcanon.Qccompare x y).
  - intros Hlt. by rewrite (H1 Hlt).
Qed.

Lemma band_nonempty : Qcanon.Qclt (of_Z 60) (of_Z 70).
Proof. reflexivity. Qed.

(** [Math.max(60, Math.min(70, quality))] for every quality but NaN. *)
Lemma adjustedQuality_clamps (quality : number) :
  quality ≠ NaN →
  within (Clamped.adjustedQuality quality) 60 70
  ∧ (below quality 60 → Clamped.adjustedQuality quality = Int 60)
  ∧ (above quality 70 → Clamped.adjustedQuality quality = Int 70)
  ∧ (within quality 60 70 → Clamped.adjustedQuality quality = quality).
Proof.
  pose proof band_nonempty as Hband.
  pose proof (Qcanon.Qclt_le_weak _ _ Hband) as Hband'.
  intros Hnan. destruct quality as [x| | |]; [|done| |].
  - unfold Clamped.adjustedQuality, Int. fold (of_Z 60) (of_Z 70).
    cbn [Math_min Math_max within below above].
    destruct (leb (of_Z 70) x) eqn:H70.
    + apply leb_le in H70.
      replace (leb (of_Z 60) (of_Z 70)) with true
        by (symmetry; by apply leb_le).
      split; [split; [done|apply Qcanon.Qcle_refl]|].
      split; [|split; [done|]].
      * intros Hlt. exfalso.
        apply (Qcanon.Qclt_not_le _ _ Hlt).
        by apply Qcanon.Qcle_trans with (of_Z 70).
      * intros [_ Hle]. f_equal. by apply Qcanon.Qcle_antisym.
    + apply leb_gt in H70.
      destruct (leb (of_Z 60) x) eqn:H60.
      * apply leb_le in H60.
        split; [split; [done|by apply Qcanon.Qclt_le_weak]|].
        split; [|split; [|done]].
        -- intros Hlt. exfalso. by apply (Qcanon.Qclt_not_le _ _ Hlt).
        -- intros Hlt. exfalso.
           apply (Qcanon.Qclt_not_le _ _ Hlt). by apply Qcanon.Qclt_le_weak.
      * apply leb_gt in H60.
        split; [split; [apply Qcanon.Qcle_refl|done]|].
        split; [done|split].
        -- intros Hlt. exfalso.
           apply (Qcanon.Qclt_not_le _ _ Hlt).
           apply Qcanon.Qclt_le_weak.
           by apply Qcanon.Qclt_trans with (of_Z 60).
        -- intros [Hle _]. exfalso. by apply (Qcanon.Qclt_not_le _ _ H60).
  - split; [split; [done|apply Qcanon.Qcle_refl]|]. by repeat split.
  - split; [split; [apply Qcanon.Qcle_refl|done]|]. by repeat split.
Qed.

(** C2, as stated, fails.  The revision that passes [-quality] places the
    quality it was given in the command line as it is: qualities 10 and
    99, outside every band, and the default 85 all reach ffmpeg
    unchanged.  The revision that passes [-q:v] clamps, but lets NaN
    through. *)
Lemma plain_revision_does_not_clamp :
  log (Plain.convertVideoToWebP rt_ok [Byte.x00] (quality_only (Int 10))
         empty_disk).1 !! 2
  = Some (EvExec (plain_command (Int 30)
            "/tmp/render/input-1700000000000-k3x9q.mp4"
            "/tmp/render/output-1700000000001-p0d2m.webp" "10"))
  ∧ log (Plain.convertVideoToWebP rt_ok [Byte.x00] (quality_only (Int 99))
           empty_disk).1 !! 2
    = Some (EvExec (plain_command (Int 30)
              "/tmp/render/input-1700000000000-k3x9q.mp4"
              "/tmp/render/output-1700000000001-p0d2m.webp" "99"))
  ∧ log (Plain.convertVideoToWebP rt_ok [Byte.x00] None empty_disk).1 !! 2
    = Some (EvExec (plain_command (Int 30)
              "/tmp/render/input-1700000000000-k3x9q.mp4"
              "/tmp/render/output-1700000000001-p0d2m.webp" "85"))
  ∧ log (Clamped.convertVideoToWebP rt_ok [Byte.x00] (quality_only NaN)
           empty_disk).1 !! 2
    = Some (EvExec (clamped_command (Int 30)
              "/tmp/render/input-1700000000000-k3x9q.mp4"
              "/tmp/render/output-1700000000001-p0d2m.webp" "NaN")).
Proof. repeat split; vm_compute; reflexivity. Qed.

(** C2, amended: in the revision that passes [-q:v], every quality other
    than NaN, integral or not, finite or not, the default 85 included, is
    replaced by a number of the band 60..70 before it is placed in the
    command line: 60 for a quality below the band, 70 for one above it,
    the quality itself for one inside; the revision that passes
    [-quality] places the quality it was given (85 by default) in the
    command line. *)
Theorem quality_in_command_line (rt : Runtime) (videoBuffer : Buffer)
    (options : option Options) (s : Sys) :
  let quality := default (Int 85) (options ≫= quality) in
  let fps := default (Int 30) (options ≫= fps) in
  quality ≠ NaN →
  (∃ placed : number,
     within placed 60 70
     ∧ (below quality 60 → placed = Int 60 ∧ toString placed = "60")
     ∧ (above quality 70 → placed = Int 70 ∧ toString placed = "70")
     ∧ (within quality 60 70 → placed = quality)
     ∧ ∀ c, EvExec c
            ∈ log (Clamped.convertVideoToWebP rt videoBuffer options s).1 →
            EvExec c ∈ log s
            ∨ c = clamped_command fps (inputPath rt) (outputPath rt)
                    (toString placed))
  ∧ (∀ c, EvExec c ∈ log (Plain.convertVideoToWebP rt videoBuffer options s).1 →
          EvExec c ∈ log s
          ∨ c = plain_command fps (inputPath rt) (outputPath rt)
                  (toString quality)).
Proof.
  intros q f Hnan. split.
  - destruct (adjustedQuality_clamps q Hnan) as (Hband & Hlo & Hhi & Hin).
    exists (Clamped.adjustedQuality q). split; [done|].
    split; [intros H; rewrite (Hlo H); by vm_compute|].
    split; [intros H; rewrite (Hhi H); by vm_compute|].
    split; [done|].
    intros c Hc. apply convert_exec in Hc as [Hc| ->]; [by left|right].
    reflexivity.
  - intros c Hc. apply convert_exec in Hc as [Hc| ->]; [by left|right].
    reflexivity.
Qed.

Lemma quality_in_command_line_witness :
  log (Clamped.convertVideoToWebP rt_ok [Byte.x00] (quality_only (tenths 599))
         empty_disk).1 !! 2
  = Some (EvExec (clamped_command (Int 30)
            "/tmp/render/input-1700000000000-k3x9q.mp4"
            "/tmp/render/output-1700000000001-p0d2m.webp" "60")).
Proof.
  pose proof (quality_in_command_line rt_ok [Byte.x00]
                (quality_only (tenths 599)) empty_disk) as H.
  cbn zeta in H. destruct H as [(placed & _ & Hlo & _ & _ & Hcmd) _].
  { discriminate. }
  destruct Hlo as [_ Htext]; [reflexivity|].
  destruct (Hcmd (Clamped.ffmpegCommand (tenths 599) (Int 30)
                    (inputPath rt_ok) (outputPath rt_ok))) as [Hin|Heq].
  - vm_compute. do 2 apply list_elem_of_further. apply list_elem_of_here.
  - vm_compute in Hin. inversion Hin.
  - rewrite Htext in Heq.
    transitivity (Some (EvExec (Clamped.ffmpegCommand (tenths 599) (Int 30)
                                  (inputPath rt_ok) (outputPath rt_ok)))).
    + vm_compute. reflexivity.
    + rewrite Heq. vm_compute. reflexivity.
Defined.

(** ** The worker pool *)

Import WorkerPool PoolSpec.

Module PoolProofs.

Lemma size_list_to_set_le (l : list nat) :
  size (list_to_set l : gset nat) ≤ length l.
Proof.
  induction l as [|x l IH]; cbn.
  - by rewrite size_empty.
  - rewrite size_union_alt, size_singleton.
    pose proof (subseteq_size (list_to_set l ∖ {[x]}) (list_to_set l : gset nat)
                  ltac:(set_solver)).
    lia.
Qed.

Lemma length_omap_le {A B} (f : A → option B) (l : list A) :
  length (omap f l) ≤ length l.
Proof. induction l as [|x l IH]; cbn; [done|]. destruct (f x); cbn; lia. Qed.

Lemma pool_inv_bound W p : pool_inv W p → active_count p ≤ W.
Proof.
  intros [Hlen Hheld]. unfold active_count.
  rewrite <- (size_dom (D := gset nat)).
  etrans; [apply (subseteq_size _ (list_to_set (omap id (workers p))))|].
  - intros i Hi. apply elem_of_dom in Hi as [j Hj].
    apply map_lookup_filter_Some in Hj as [Hj Hact].
    apply elem_of_list_to_set, list_elem_of_omap.
    exists (Some i). split; [|done]. by apply (Hheld i j).
  - etrans; [apply size_list_to_set_le|].
    etrans; [apply length_omap_le|]. lia.
Qed.

Lemma pool_inv_initial W : pool_inv W (initial W).
Proof.
  split; cbn.
  - apply length_replicate.
  - intros id j Hj. by rewrite lookup_empty in Hj.
Qed.

Lemma pool_inv_submit W dedup k p : pool_inv W p → pool_inv W (submit dedup k p).
Proof.
  intros [Hlen Hheld]. unfold submit. case_match; [done|].
  split; cbn; [done|]. intros id j Hj Hact.
  apply lookup_insert_Some in Hj as [[_ <-]|[_ Hj]]; [done|].
  by apply (Hheld id j).
Qed.

Lemma pool_inv_dequeue W i p : pool_inv W p → pool_inv W (dequeue i p).
Proof.
  intros [Hlen Hheld]. unfold dequeue.
  destruct (workers p !! i) as [[busy|]|] eqn:Hi; try done.
  destruct (queue p) as [|id rest]; [done|].
  split; cbn; [by rewrite length_insert|]. intros id' j' Hj Hact.
  destruct (decide (id' = id)) as [->|Hne].
  - apply list_elem_of_lookup. exists i.
    apply list_lookup_insert_eq. by eapply lookup_lt_Some.
  - rewrite lookup_alter_ne in Hj by done.
    apply (Hheld id' j' Hj), list_elem_of_lookup in Hact as [k Hk].
    apply list_elem_of_lookup. exists k.
    rewrite list_lookup_insert_ne; [done|]. intros ->. congruence.
Qed.

Lemma pool_inv_finish W i ok text p :
  pool_inv W p → pool_inv W (finish i ok text p).
Proof.
  intros [Hlen Hheld]. unfold finish.
  destruct (workers p !! i) as [[id|]|] eqn:Hi; try done.
  split; cbn; [by rewrite length_insert|]. intros id' j' Hj Hact.
  destruct (decide (id' = id)) as [->|Hne].
  - rewrite lookup_alter_eq in Hj.
    destruct (jobs p !! id) as [j|]; [|done]. cbn in Hj.
    injection Hj as <-. unfold is_active in Hact. cbn in Hact.
    by destruct ok.
  - rewrite lookup_alter_ne in Hj by done.
    apply (Hheld id' j' Hj), list_elem_of_lookup in Hact as [k Hk].
    apply list_elem_of_lookup. exists k.
    rewrite list_lookup_insert_ne; [done|]. intros ->. congruence.
Qed.

Lemma pool_inv_run W dedup h : ∀ p,
  pool_inv W p → pool_inv W (WorkerPool.run dedup h p).
Proof.
  induction h as [|o h IH]; intros p Hp; [done|].
  cbn. apply IH. destruct o; cbn.
  - by apply pool_inv_submit.
  - by apply pool_inv_dequeue.
  - by apply pool_inv_finish.
Qed.

End PoolProofs.

(** C9: after any history of submissions, dequeues and pipeline
    completions on a pool created with concurrency limit [W], with or
    without dedup-by-key, at most [W] jobs are in the [active] state. *)
Theorem at_most_W_active (W : nat) (dedup : bool) (h : list op) :
  active_count (WorkerPool.run dedup h (WorkerPool.initial W)) ≤ W.
Proof.
  apply PoolProofs.pool_inv_bound, PoolProofs.pool_inv_run,
    PoolProofs.pool_inv_initial.
Qed.

(** * Further properties of the modelled code *)

(** ** The retry combinator and the startup checks *)

Module StartupExtras.
Import Startup StartupSpec.

(** Among the attempts [a], ..., [a + r - 1] there is a first one that
    passes, or none passes. *)
Lemma first_pass_or_none {T} (fn : nat → settle T) (a r : nat) :
  (∃ k, a ≤ k < a + r ∧ attempt_fails (fn k) = false
        ∧ ∀ j, a ≤ j < k → attempt_fails (fn j) = true)
  ∨ (∀ j, a ≤ j < a + r → attempt_fails (fn j) = true).
Proof.
  induction r as [|r IH].
  - right. intros j Hj. lia.
  - destruct IH as [(k & Hk & Hp & Hb)|Hnone].
    + left. exists k. split; [lia|done].
    + destruct (attempt_fails (fn (a + r))) eqn:E.
      * right. intros j Hj. destruct (decide (j = a + r)) as [->|]; [done|].
        apply Hnone. lia.
      * left. exists (a + r). split; [lia|]. split; [done|].
        intros j Hj. apply Hnone. lia.
Qed.

(** The two ways a run of the combinator can go. *)
Lemma withRetry_cases {T} (fn : nat → settle T) (nm : string)
    (A : nat) (D Tm : N) :
  let run := withRetry fn {| name := nm; attempts := Some A;
                             delayMs := Some D; timeoutMs := Some Tm |} in
  (∃ k v, 1 ≤ k ≤ A ∧ fn k = Resolves v
          ∧ outcome run = Normal v ∧ schedule (trace run) = plan nm Tm D 1 k)
  ∨ ((∀ j, 1 ≤ j ≤ A → attempt_fails (fn j) = true)
     ∧ outcome run
       = Abrupt (JsError (exhausted_text nm A
           (if A is 0 then JsUndefined else attempt_error (fn A) Tm nm)))
     ∧ schedule (trace run) = plan nm Tm D 1 A).
Proof.
  cbn zeta. destruct (first_pass_or_none fn 1 A) as [(k & Hk & Hp & Hb)|Hnone].
  - left. destruct (fn k) as [v| |] eqn:Hfk; try discriminate.
    exists k, v. split; [lia|]. split; [done|].
    apply (withRetry_first_success fn nm A D Tm k v); [lia|done|done].
  - right. assert (Hall : ∀ j, 1 ≤ j ≤ A → attempt_fails (fn j) = true).
    { intros j Hj. apply Hnone. lia. }
    split; [done|]. by apply withRetry_all_fail.
Qed.

(** [withRetry] never invokes the operation more than [A] times: its
    invocations are attempts 1 to [k] for some [k] not above [A], with a
    sleep of [D] between two consecutive ones and none after the last;
    and a run that fails has made all [A] attempts. *)
Theorem withRetry_attempts_bounded {T} (fn : nat → settle T) (nm : string)
    (A : nat) (D Tm : N) :
  let run := withRetry fn {| name := nm; attempts := Some A;
                             delayMs := Some D; timeoutMs := Some Tm |} in
  ∃ k, k ≤ A ∧ schedule (trace run) = plan nm Tm D 1 k
       ∧ ∀ e, outcome run = Abrupt e → k = A.
Proof.
  cbn zeta.
  destruct (withRetry_cases fn nm A D Tm) as [(k & v & Hk & _ & Ho & Hs)|(_ & Ho & Hs)].
  - exists k. split; [lia|]. split; [done|]. intros e He. congruence.
  - exists A. done.
Qed.

(** [withRetry] returns a value exactly when one of the first [A]
    attempts resolves before its deadline; otherwise it throws an [Error]
    whose message starts with the name and the number of attempts. *)
Theorem withRetry_succeeds_iff {T} (fn : nat → settle T) (nm : string)
    (A : nat) (D Tm : N) :
  let run := withRetry fn {| name := nm; attempts := Some A;
                             delayMs := Some D; timeoutMs := Some Tm |} in
  ((∃ v, outcome run = Normal v)
   ↔ ∃ k, 1 ≤ k ≤ A ∧ attempt_fails (fn k) = false)
  ∧ ∀ e, outcome run = Abrupt e →
         ∃ last, e = JsError (nm +:+ " failed after " +:+ pretty A +:+
                              " attempts: " +:+ last).
Proof.
  cbn zeta.
  destruct (withRetry_cases fn nm A D Tm)
    as [(k & v & Hk & Hfk & Ho & _)|(Hall & Ho & _)]; rewrite Ho.
  - split; [|intros e [=]]. split.
    + intros _. exists k. split; [done|]. by rewrite Hfk.
    + intros _. by exists v.
  - split.
    + split; [intros [v [=]]|].
      intros (k & Hk & Hp). rewrite (Hall k Hk) in Hp. done.
    + intros e [= <-]. by eexists.
Qed.

(** With zero attempts [withRetry] does nothing at all: the operation is
    never invoked, nothing is logged, and the error reports [undefined]
    as the last error. *)
Theorem withRetry_zero_attempts {T} (fn : nat → settle T) (nm : string)
    (D Tm : option N) :
  withRetry fn {| name := nm; attempts := Some 0;
                  delayMs := D; timeoutMs := Tm |}
  = ([], Abrupt (JsError (nm +:+ " failed after 0 attempts: undefined"))).
Proof. reflexivity. Qed.

Lemma redis_passes_iff_pong (env : Env) (w : World) (opts : CheckOpts) :
  outcome (checkRedisReachable env w opts) = Normal tt
  ↔ ∃ k, 1 ≤ k ≤ default 10 (opt_attempts opts)
         ∧ redis_ping w k = Resolves "PONG".
Proof.
  unfold checkRedisReachable.
  destruct (withRetry_cases (redis_probe w) (redis_name env)
              (default 10 (opt_attempts opts))
              (default 1500%N (opt_delayMs opts))
              (default 5000%N (opt_timeoutMs opts)))
    as [(k & v & Hk & Hfk & Ho & _)|(Hall & Ho & _)]; rewrite Ho.
  - destruct v. split; [|done]. intros _. exists k. split; [done|].
    unfold redis_probe in Hfk.
    destruct (redis_ping w k) as [pong| |]; try done.
    case_decide; by simplify_eq.
  - split; [done|]. intros (k & Hk & Hpong).
    specialize (Hall k Hk). unfold redis_probe in Hall. rewrite Hpong in Hall.
    by rewrite decide_True in Hall.
Qed.

(** The Redis check passes exactly when one of the pings it is allowed
    answers, before its deadline, with precisely [PONG]. *)
Theorem checkRedisReachable_passes_iff_pong (env : Env) (w : World)
    (opts : CheckOpts) :
  outcome (checkRedisReachable env w opts) = Normal tt
  ↔ ∃ k, 1 ≤ k ≤ default 10 (opt_attempts opts)
         ∧ redis_ping w k = Resolves "PONG".
Proof. apply redis_passes_iff_pong. Qed.

(** A Redis that keeps answering something else than [PONG] makes the
    check fail after all its attempts, and the error quotes the last
    reply. *)
Theorem checkRedisReachable_wrong_reply (env : Env) (w : World)
    (opts : CheckOpts) (reply : string) :
  let A := default 10 (opt_attempts opts) in
  1 ≤ A →
  (∀ k, 1 ≤ k ≤ A → ∃ r, redis_ping w k = Resolves r ∧ r ≠ "PONG") →
  redis_ping w A = Resolves reply →
  outcome (checkRedisReachable env w opts)
  = Abrupt (JsError (redis_name env +:+ " failed after " +:+ pretty A +:+
                     " attempts: Unexpected Redis PING response: " +:+ reply)).
Proof.
  intros A HA Hwrong Hlast. unfold checkRedisReachable. fold A.
  assert (Hall : ∀ j, 1 ≤ j ≤ A → attempt_fails (redis_probe w j) = true).
  { intros j Hj. destruct (Hwrong j Hj) as (r & Hr & Hne).
    unfold redis_probe. rewrite Hr. by rewrite decide_False. }
  destruct (withRetry_all_fail (redis_probe w) (redis_name env) A
              (default 1500%N (opt_delayMs opts))
              (default 5000%N (opt_timeoutMs opts)) Hall) as [Ho _].
  cbn zeta in Ho. rewrite Ho. destruct A as [|A']; [lia|].
  unfold exhausted_text, attempt_error, redis_probe. rewrite Hlast.
  destruct (Hwrong (S A') ltac:(lia)) as (r & Hr & Hne).
  rewrite Hlast in Hr. injection Hr as <-.
  by rewrite decide_False.
Qed.

Lemma checkRedisReachable_wrong_reply_witness :
  outcome (checkRedisReachable env_demo world_loading
             {| opt_attempts := Some 2; opt_delayMs := None;
                opt_timeoutMs := None |})
  = Abrupt (JsError "Redis reachable (REDIS_URL=redis://cache:6379) failed after 2 attempts: Unexpected Redis PING response: LOADING").
Proof.
  apply (checkRedisReachable_wrong_reply env_demo world_loading
           {| opt_attempts := Some 2; opt_delayMs := None;
              opt_timeoutMs := None |} "LOADING").
  - cbn. lia.
  - intros k _. exists "LOADING". split; [reflexivity|discriminate].
  - reflexivity.
Defined.

Lemma runStartupChecks_invalid_env_eq (env : Env) (w : World)
    (role : ServiceRole) (e : JsValue) :
  validateEnv w = Abrupt e →
  runStartupChecks env w role
  = ([EvLog "================== STARTUP CHECKS ==================";
      EvLog ("ROLE=" +:+ role_text role)], Abrupt e).
Proof. intros H. unfold runStartupChecks. rewrite H. reflexivity. Qed.

(** When [validateEnv] throws, [runStartupChecks] stops right after its
    two header lines: no dependency is probed and the error of
    [validateEnv] is thrown as it is. *)
Theorem runStartupChecks_invalid_env (env : Env) (w : World)
    (role : ServiceRole) (e : JsValue) :
  validateEnv w = Abrupt e →
  runStartupChecks env w role
  = ([EvLog "================== STARTUP CHECKS ==================";
      EvLog ("ROLE=" +:+ role_text role)], Abrupt e)
  ∧ schedule (trace (runStartupChecks env w role)) = [].
Proof.
  intros H. by rewrite (runStartupChecks_invalid_env_eq env w role e H).
Qed.

Lemma runStartupChecks_invalid_env_witness :
  runStartupChecks env_demo world_invalid worker
  = ([EvLog "================== STARTUP CHECKS ==================";
      EvLog "ROLE=worker"],
     Abrupt (JsError "Missing required env var: REDIS_URL")).
Proof.
  apply (proj1 (runStartupChecks_invalid_env env_demo world_invalid worker
                  (JsError "Missing required env var: REDIS_URL") eq_refl)).
Defined.

Lemma budget_app (t1 t2 : list event) :
  budget (t1 ++ t2) = (budget t1 + budget t2)%N.
Proof.
  induction t1 as [|ev t1 IH]; cbn; [done|].
  unfold budget in *. destruct ev; cbn; rewrite ?IH; lia.
Qed.

Lemma budget_schedule (tr : list event) : budget (schedule tr) = budget tr.
Proof.
  induction tr as [|ev tr IH]; [done|].
  unfold schedule, budget in *. destruct ev; cbn; rewrite ?IH; done.
Qed.

Lemma budget_plan nm Tm D a k :
  budget (plan nm Tm D a k)
  = (N.of_nat k * Tm + N.of_nat (k - 1) * D)%N.
Proof.
  revert a. induction k as [|k IH]; intros a; [done|].
  rewrite plan_cons. destruct k as [|k].
  - cbn. lia.
  - change (budget (EvAttempt nm a Tm :: [EvSleep D] ++ plan nm Tm D (S a) (S k)))
      with (Tm + (D + budget (plan nm Tm D (S a) (S k))))%N.
    rewrite IH. replace (S (S k) - 1) with (S (S k - 1)) by lia. lia.
Qed.

(** A check that is allowed [A] attempts keeps its caller waiting for at
    most [A] deadlines and [A - 1] delays. *)
Lemma withRetry_budget {T} (fn : nat → settle T) nm A D Tm :
  (budget (trace (withRetry fn {| name := nm; attempts := Some A;
                                  delayMs := Some D; timeoutMs := Some Tm |}))
   ≤ N.of_nat A * Tm + N.of_nat (A - 1) * D)%N.
Proof.
  destruct (withRetry_cases fn nm A D Tm)
    as [(k & v & Hk & _ & _ & Hs)|(_ & _ & Hs)]; cbn zeta in Hs;
    rewrite <- budget_schedule, Hs, budget_plan; [|lia].
  assert (N.of_nat k ≤ N.of_nat A)%N by lia.
  assert (N.of_nat (k - 1) ≤ N.of_nat (A - 1))%N by lia.
  nia.
Qed.

(** The deadlines and delays of [runStartupChecks] add up to at most
    314.5 seconds for the [api] role and 678.5 seconds for the [worker]
    role, whatever the dependencies do. *)
Theorem runStartupChecks_blocking_bound (env : Env) (w : World)
    (role : ServiceRole) :
  (budget (trace (runStartupChecks env w role))
   ≤ match role with api => 314500 | worker => 678500 end)%N.
Proof.
  destruct (validateEnv w) as [[]|e] eqn:Hvalid.
  - destruct (runStartupChecks_stages env w role Hvalid) as [_ Hs].
    cbn zeta in Hs. rewrite <- budget_schedule, Hs. clear Hs.
    rewrite checkRedisReachable_default, checkMinioReachable_default,
      checkGitHubAppReachable_default. unfold checkRendererWarmup.
    pose proof (withRetry_budget (redis_probe w) (redis_name env) 10 1500 5000) as Hr.
    pose proof (withRetry_budget (ensureBucket w) (minio_name env) 10 2000 15000) as Hm.
    pose proof (withRetry_budget (checkGitHubAppAuth w) (github_name env) 5 2000 15000) as Hg.
    pose proof (withRetry_budget (warmupBundle w) warmup_name 3 2000 120000) as Hu.
    rewrite <- budget_schedule in Hr, Hm, Hg, Hu.
    repeat case_match; rewrite ?budget_app; cbn [budget foldr]; lia.
  - rewrite (runStartupChecks_invalid_env_eq env w role e Hvalid).
    destruct role; cbn; lia.
Qed.

(** [GET /ready] sets timers for 9.5 seconds in all and never sleeps. *)
Theorem ready_blocking_budget (env : Env) (w : World) :
  budget (trace (Health.ready env w)) = 9500%N.
Proof.
  unfold Health.ready, Health.probe, checkRedisReachable,
    checkMinioReachable, checkGitHubAppReachable, withRetry.
  cbn [name attempts delayMs timeoutMs opt_attempts opt_delayMs opt_timeoutMs
       from_option id].
  rewrite !retry_loop_unfold.
  destruct (redis_probe w 1) as [[]|e1|], (ensureBucket w 1) as [[]|e2|],
    (checkGitHubAppAuth w 1) as [[]|e3|]; reflexivity.
Qed.

Lemma withRetry_unit_passes_iff (fn : nat → settle unit) nm A D Tm :
  outcome (withRetry fn {| name := nm; attempts := Some A;
                           delayMs := Some D; timeoutMs := Some Tm |})
  = Normal tt
  ↔ ∃ k, 1 ≤ k ≤ A ∧ fn k = Resolves tt.
Proof.
  destruct (withRetry_cases fn nm A D Tm)
    as [(k & [] & Hk & Hfk & Ho & _)|(Hall & Ho & _)]; cbn zeta in Ho;
    rewrite Ho.
  - split; [|done]. intros _. by exists k.
  - split; [done|]. intros (k & Hk & Hfk).
    specialize (Hall k Hk). by rewrite Hfk in Hall.
Qed.

(** [runStartupChecks] completes normally exactly when the environment
    validates and every check it runs passes within its attempts: Redis
    answers [PONG] within 10 pings, the bucket check and the GitHub check
    resolve within 10 and 5 attempts, and, for a worker, the warmup
    resolves within 3. *)
Theorem runStartupChecks_succeeds_iff (env : Env) (w : World)
    (role : ServiceRole) :
  outcome (runStartupChecks env w role) = Normal tt
  ↔ validateEnv w = Normal tt
    ∧ (∃ k, 1 ≤ k ≤ 10 ∧ redis_ping w k = Resolves "PONG")
    ∧ (∃ k, 1 ≤ k ≤ 10 ∧ ensureBucket w k = Resolves tt)
    ∧ (∃ k, 1 ≤ k ≤ 5 ∧ checkGitHubAppAuth w k = Resolves tt)
    ∧ (role = worker → ∃ k, 1 ≤ k ≤ 3 ∧ warmupBundle w k = Resolves tt).
Proof.
  destruct (validateEnv w) as [[]|e] eqn:Hvalid.
  2: { rewrite (runStartupChecks_invalid_env_eq env w role e Hvalid).
       cbn. split; [done|]. by intros [? _]. }
  destruct (runStartupChecks_stages env w role Hvalid) as [Ho _].
  cbn zeta in Ho. rewrite Ho. clear Ho.
  pose proof (redis_passes_iff_pong env w no_opts) as Hr.
  change (default 10 (opt_attempts no_opts)) with 10 in Hr.
  rewrite checkMinioReachable_default, checkGitHubAppReachable_default.
  unfold checkRendererWarmup.
  pose proof (withRetry_unit_passes_iff (ensureBucket w) (minio_name env)
                10 2000 15000) as Hm.
  pose proof (withRetry_unit_passes_iff (checkGitHubAppAuth w) (github_name env)
                5 2000 15000) as Hg.
  pose proof (withRetry_unit_passes_iff (warmupBundle w) warmup_name
                3 2000 120000) as Hu.
  rewrite <- Hr, <- Hm, <- Hg, <- Hu.
  destruct (outcome (checkRedisReachable env w no_opts)) as [[]|];
    destruct (outcome (withRetry (ensureBucket w) _)) as [[]|];
    destruct (outcome (withRetry (checkGitHubAppAuth w) _)) as [[]|];
    destruct role; intuition congruence.
Qed.

End StartupExtras.

(** ** Teardown and re-acquisition of the shared browser *)

Module BrowserExtras.
Import RemotionBrowser BrowserSpec.

(** Tearing down a ready handle forgets the cached promise before it
    closes the browser: whatever [b.close()] does the handle ends up
    uninitialized, the browser has been closed once, and a second
    teardown is a no-op. *)
Theorem teardown_clears_then_closes (close : Browser → completion unit)
    (st : State) (p : nat) (b : Browser) :
  browserPromise st = Some p →
  observe p st = Resolves b →
  ∃ st1, closeSharedRemotionBrowser close st = Finished (close b) st1
    ∧ browserPromise st1 = None
    ∧ closed st1 = closed st ++ [b]
    ∧ launches st1 = launches st
    ∧ closeSharedRemotionBrowser close st1 = Finished (Normal tt) st1.
Proof.
  intros Hb Ho. unfold closeSharedRemotionBrowser at 1. rewrite Hb, Ho.
  cbn [close_after_await]. eexists. split; [reflexivity|]. done.
Qed.

Lemma teardown_clears_then_closes_witness :
  ∃ st1, closeSharedRemotionBrowser (λ _, Abrupt (JsError "Target closed"))
           ready_handle
         = Finished (Abrupt (JsError "Target closed")) st1
    ∧ browserPromise st1 = None
    ∧ closed st1 = [7]
    ∧ launches st1 = launches ready_handle
    ∧ closeSharedRemotionBrowser (λ _, Abrupt (JsError "Target closed")) st1
      = Finished (Normal tt) st1.
Proof.
  apply (teardown_clears_then_closes (λ _, Abrupt (JsError "Target closed"))
           ready_handle 0 7); reflexivity.
Defined.

(** After a teardown the next acquisition starts a second engine and
    hands out a new, pending promise, different from the one of the
    closed browser. *)
Theorem acquire_after_teardown (close : Browser → completion unit)
    (options : RemotionBrowserOptions) (st : State) (p : nat) (b : Browser) :
  browserPromise st = Some p →
  observe p st = Resolves b →
  ∃ c st1, closeSharedRemotionBrowser close st = Finished c st1
    ∧ (getSharedRemotionBrowser options st1).1 ≠ p
    ∧ observe (getSharedRemotionBrowser options st1).1
              (getSharedRemotionBrowser options st1).2 = StillPending
    ∧ launches (getSharedRemotionBrowser options st1).2
      = launches st ++ [launch_args options]
    ∧ browserPromise (getSharedRemotionBrowser options st1).2
      = Some (getSharedRemotionBrowser options st1).1.
Proof.
  intros Hb Ho. unfold closeSharedRemotionBrowser. rewrite Hb, Ho.
  cbn [close_after_await]. eexists _, _. split; [reflexivity|].
  unfold getSharedRemotionBrowser, openBrowser, observe in *. cbn.
  destruct (promises st !! p) as [o|] eqn:Hp; [|done].
  apply lookup_lt_Some in Hp.
  split; [lia|]. split; [|done].
  by rewrite lookup_app_r, Nat.sub_diag.
Qed.

Lemma acquire_after_teardown_witness :
  ∃ c st1, closeSharedRemotionBrowser (λ _, Normal tt) ready_handle
           = Finished c st1
    ∧ (getSharedRemotionBrowser no_options st1).1 ≠ 0
    ∧ observe (getSharedRemotionBrowser no_options st1).1
              (getSharedRemotionBrowser no_options st1).2 = StillPending
    ∧ launches (getSharedRemotionBrowser no_options st1).2
      = launches ready_handle ++ [launch_args no_options]
    ∧ browserPromise (getSharedRemotionBrowser no_options st1).2
      = Some (getSharedRemotionBrowser no_options st1).1.
Proof.
  apply (acquire_after_teardown (λ _, Normal tt) no_options ready_handle 0 7);
    reflexivity.
Defined.

(** Only the options of the caller that finds the handle uninitialized
    reach [openBrowser]; the options of every later caller are ignored. *)
Theorem first_caller_options_win (options : RemotionBrowserOptions)
    (h : list step) (st : State) :
  browserPromise st = None →
  launches (run (Acquire options :: h) st).2
  = launches st ++ [launch_args options].
Proof.
  intros Hb. cbn [run].
  destruct (BrowserProofs.acquire_fresh options st Hb) as (_ & Hb1 & _ & _).
  assert (Hl : launches (getSharedRemotionBrowser options st).2
               = launches st ++ [launch_args options]).
  { unfold getSharedRemotionBrowser. by rewrite Hb. }
  destruct (getSharedRemotionBrowser options st) as [p st1].
  cbn [fst snd] in *.
  destruct (BrowserProofs.run_cached h st1 _ Hb1) as (Hl' & _).
  destruct (run h st1) as [ps st2]. cbn [fst snd] in *. congruence.
Qed.

Lemma first_caller_options_win_witness :
  launches (run [Acquire no_options;
                 Acquire {| chromiumOptions := Some "--no-sandbox";
                            browserExecutable := Some "/usr/bin/chromium" |}]
                initial).2
  = [launch_args no_options].
Proof.
  apply (first_caller_options_win no_options
           [Acquire {| chromiumOptions := Some "--no-sandbox";
                       browserExecutable := Some "/usr/bin/chromium" |}]
           initial).
  reflexivity.
Defined.

(** A teardown that starts while the engine is still starting neither
    cancels the start nor clears the handle: it waits.  A caller arriving
    meanwhile gets the pending promise; when the engine is up the
    teardown resumes, clears the handle and closes that very browser,
    which the caller's promise now resolves to. *)
Theorem teardown_while_starting (close : Browser → completion unit)
    (options : RemotionBrowserOptions) (st : State) (p : nat) (b : Browser) :
  browserPromise st = Some p →
  promises st !! p = Some StillPending →
  closeSharedRemotionBrowser close st = Suspended p
  ∧ getSharedRemotionBrowser options st = (p, st)
  ∧ let st2 := settle_promise p (Resolves b) st in
    observe p st2 = Resolves b
    ∧ ∃ st3, close_after_await close (observe p st2) p st2
             = Finished (close b) st3
        ∧ browserPromise st3 = None
        ∧ b ∈ closed st3
        ∧ observe p st3 = Resolves b.
Proof.
  intros Hb Hp. unfold closeSharedRemotionBrowser, getSharedRemotionBrowser.
  rewrite Hb. unfold observe at 1. rewrite Hp. cbn [close_after_await from_option].
  split; [done|]. split; [done|]. cbn zeta.
  assert (Ho : observe p (settle_promise p (Resolves b) st) = Resolves b).
  { unfold observe, settle_promise. rewrite Hp. cbn.
    rewrite list_lookup_insert_eq; [done|]. by eapply lookup_lt_Some. }
  split; [done|]. rewrite Ho. cbn [close_after_await].
  eexists. split; [reflexivity|]. cbn. split; [done|]. split.
  - apply elem_of_app. right. apply list_elem_of_here.
  - exact Ho.
Qed.

Lemma teardown_while_starting_witness :
  closeSharedRemotionBrowser (λ _, Normal tt) starting_handle = Suspended 0
  ∧ getSharedRemotionBrowser no_options starting_handle = (0, starting_handle)
  ∧ let st2 := settle_promise 0 (Resolves 7) starting_handle in
    observe 0 st2 = Resolves 7
    ∧ ∃ st3, close_after_await (λ _, Normal tt) (observe 0 st2) 0 st2
             = Finished (Normal tt) st3
        ∧ browserPromise st3 = None
        ∧ 7 ∈ closed st3
        ∧ observe 0 st3 = Resolves 7.
Proof.
  apply (teardown_while_starting (λ _, Normal tt) no_options starting_handle
           0 7); reflexivity.
Defined.

End BrowserExtras.

(** ** Outcomes of the transcode stage *)

Module FfmpegExtras.
Import Ffmpeg FfmpegSpec.

(** The [try] block up to the read of the output file, step by step. *)
Lemma produce_eq cmd rt buf options s :
  produce cmd rt buf options s
  = let c := cmd (default (Int 85) (options ≫= quality))
                 (default (Int 30) (options ≫= fps))
                 (inputPath rt) (outputPath rt) in
    let l1 := log s ++ [EvWriteFile (inputPath rt)] in
    let l3 := (l1 ++ [EvLog ("[ffmpeg] Converting MP4 to WebP: " +:+
                             inputPath rt +:+ " -> " +:+ outputPath rt)])
              ++ [EvExec c] in
    match os_writeFile rt (inputPath rt) buf (files s) with
    | (fs1, Abrupt e) => ({| files := fs1; log := l1 |}, Abrupt e)
    | (fs1, Normal _) =>
        match os_exec rt c fs1 with
        | (fs2, Abrupt e) => ({| files := fs2; log := l3 |}, Abrupt e)
        | (fs2, Normal stderr) =>
            if includes stderr "Error"
            then ({| files := fs2; log := l3 |},
                  Abrupt (JsError ("FFmpeg conversion failed: " +:+ stderr)))
            else
              match fs2 !! outputPath rt with
              | Some data =>
                  ({| files := fs2; log := l3 ++ [EvReadFile (outputPath rt)] |},
                   os_readFile rt (outputPath rt) data)
              | None =>
                  ({| files := fs2; log := l3 ++ [EvReadFile (outputPath rt)] |},
                   Abrupt (enoent "open" (outputPath rt)))
              end
        end
    end.
Proof.
  unfold produce, writeFile, execAsync, readFile, Ffmpeg.bind, Ffmpeg.emit,
    Ffmpeg.throw, Ffmpeg.ret.
  cbn.
  destruct (os_writeFile rt (inputPath rt) buf (files s)) as [fs1 [[]|e]];
    cbn; [|done].
  destruct (os_exec rt _ fs1) as [fs2 [stderr|e]]; cbn; [|done].
  destruct (includes stderr "Error"); cbn; [done|].
  by destruct (fs2 !! outputPath rt).
Qed.

Lemma revisions_convert conv cmd : (conv, cmd) ∈ revisions → conv = convert cmd.
Proof.
  unfold revisions. intros H.
  apply elem_of_cons in H as [[= -> ->]|H]; [done|].
  apply list_elem_of_singleton in H as [= -> ->]. done.
Qed.

(** [includes] finds every occurrence. *)
Lemma prefix_app (needle post : string) :
  String.prefix needle (needle +:+ post) = true.
Proof.
  induction needle as [|a needle IH]; [by destruct post|].
  change (String.prefix (String a needle) (String a (needle +:+ post)) = true).
  cbn [String.prefix].
  destruct (Ascii.ascii_dec a a); [done|congruence].
Qed.

Lemma includes_app (pre needle post : string) :
  includes (pre +:+ needle +:+ post) needle = true.
Proof.
  induction pre as [|a pre IH].
  - change ("" +:+ needle +:+ post) with (needle +:+ post).
    destruct (needle +:+ post) eqn:E; cbn [includes];
      rewrite <- E, prefix_app; done.
  - change (String a pre +:+ needle +:+ post)
      with (String a (pre +:+ needle +:+ post)).
    cbn [includes]. rewrite IH. by case_match.
Qed.

(** The call returns a buffer exactly when every step went well: the
    input was written, the subprocess exited normally without the text
    [Error] on stderr, and the output file existed and could be read; the
    buffer is then what was read. *)
Theorem convertVideoToWebP_succeeds_iff conv cmd (rt : Runtime)
    (videoBuffer : Buffer) (options : option Options) (s : Sys)
    (webpBuffer : Buffer) :
  (conv, cmd) ∈ revisions →
  (conv rt videoBuffer options s).2 = Normal webpBuffer
  ↔ ∃ fs1 fs2 stderr data,
      os_writeFile rt (inputPath rt) videoBuffer (files s) = (fs1, Normal tt)
      ∧ os_exec rt (cmd (default (Int 85) (options ≫= quality))
                        (default (Int 30) (options ≫= fps))
                        (inputPath rt) (outputPath rt)) fs1
        = (fs2, Normal stderr)
      ∧ includes stderr "Error" = false
      ∧ fs2 !! outputPath rt = Some data
      ∧ os_readFile rt (outputPath rt) data = Normal webpBuffer.
Proof.
  intros ->%revisions_convert.
  rewrite FfmpegProofs.convert_shape, produce_eq. cbn zeta. split.
  - destruct (os_writeFile rt (inputPath rt) videoBuffer (files s))
      as [fs1 [[]|e]] eqn:Hw; [|done].
    destruct (os_exec rt _ fs1) as [fs2 [stderr|e]] eqn:He; [|done].
    destruct (includes stderr "Error") eqn:Hi; [done|].
    destruct (fs2 !! outputPath rt) as [data|] eqn:Hl; [|done].
    destruct (os_readFile rt (outputPath rt) data) as [webp|e] eqn:Hr; [|done].
    cbn. intros [= <-]. by exists fs1, fs2, stderr, data.
  - intros (fs1 & fs2 & stderr & data & -> & -> & -> & -> & ->). done.
Qed.

Lemma convertVideoToWebP_succeeds_iff_witness :
  (Clamped.convertVideoToWebP rt_ok [Byte.x00] None empty_disk).2
  = Normal [Byte.x52; Byte.x49; Byte.x46; Byte.x46]
  ↔ ∃ fs1 fs2 stderr data,
      os_writeFile rt_ok (inputPath rt_ok) [Byte.x00] (files empty_disk)
      = (fs1, Normal tt)
      ∧ os_exec rt_ok (Clamped.ffmpegCommand (Int 85) (Int 30)
                         (inputPath rt_ok) (outputPath rt_ok)) fs1
        = (fs2, Normal stderr)
      ∧ includes stderr "Error" = false
      ∧ fs2 !! outputPath rt_ok = Some data
      ∧ os_readFile rt_ok (outputPath rt_ok) data
        = Normal [Byte.x52; Byte.x49; Byte.x46; Byte.x46].
Proof.
  apply (convertVideoToWebP_succeeds_iff Clamped.convertVideoToWebP
           Clamped.ffmpegCommand rt_ok [Byte.x00] None empty_disk).
  apply list_elem_of_here.
Defined.

(** Any occurrence of the text [Error] on stderr fails the conversion,
    even though the subprocess exited normally and may have written its
    output: the output file is not read, both files are removed, and the
    error carries the whole of stderr. *)
Theorem convertVideoToWebP_error_on_stderr conv cmd (rt : Runtime)
    (videoBuffer : Buffer) (options : option Options) (s : Sys)
    (fs1 fs2 : gmap string Buffer) (pre post : string) :
  (conv, cmd) ∈ revisions →
  os_writeFile rt (inputPath rt) videoBuffer (files s) = (fs1, Normal tt) →
  os_exec rt (cmd (default (Int 85) (options ≫= quality))
                  (default (Int 30) (options ≫= fps))
                  (inputPath rt) (outputPath rt)) fs1
  = (fs2, Normal (pre +:+ "Error" +:+ post)) →
  (conv rt videoBuffer options s).2
  = Abrupt (JsError ("Failed to convert video to WebP: FFmpeg conversion failed: "
                     +:+ pre +:+ "Error" +:+ post))
  ∧ log (conv rt videoBuffer options s).1
    = log s ++
      [EvWriteFile (inputPath rt);
       EvLog ("[ffmpeg] Converting MP4 to WebP: " +:+ inputPath rt +:+
              " -> " +:+ outputPath rt);
       EvExec (cmd (default (Int 85) (options ≫= quality))
                   (default (Int 30) (options ≫= fps))
                   (inputPath rt) (outputPath rt));
       EvUnlink (inputPath rt); EvUnlink (outputPath rt)].
Proof.
  intros ->%revisions_convert Hw He.
  rewrite FfmpegProofs.convert_shape, produce_eq. cbn zeta.
  rewrite Hw, He, includes_app. cbn [fst snd].
  split; [done|].
  rewrite FfmpegProofs.cleanup_log. cbn [log]. by rewrite <- !app_assoc.
Qed.

Lemma convertVideoToWebP_error_on_stderr_witness :
  (Clamped.convertVideoToWebP rt_error_pattern [Byte.x00] None empty_disk).2
  = Abrupt (JsError "Failed to convert video to WebP: FFmpeg conversion failed: Error while decoding stream #0:0").
Proof.
  apply (convertVideoToWebP_error_on_stderr Clamped.convertVideoToWebP
           Clamped.ffmpegCommand rt_error_pattern [Byte.x00] None empty_disk
           (<["/tmp/render/input-1700000000000-k3x9q.mp4" := [Byte.x00]]> ∅)
           (<["/tmp/render/output-1700000000001-p0d2m.webp" := [Byte.x52]]>
              (<["/tmp/render/input-1700000000000-k3x9q.mp4" := [Byte.x00]]> ∅))
           "" " while decoding stream #0:0").
  - apply list_elem_of_here.
  - reflexivity.
  - reflexivity.
Defined.

(** Whatever goes wrong, an [Error] leaves the call only with the prefix
    [Failed to convert video to WebP: ] put before the message of its
    cause; a thrown value that is not an [Error] is passed on as it is. *)
Theorem convertVideoToWebP_errors_are_wrapped conv cmd (rt : Runtime)
    (videoBuffer : Buffer) (options : option Options) (s : Sys)
    (e : JsValue) :
  (conv, cmd) ∈ revisions →
  (conv rt videoBuffer options s).2 = Abrupt e →
  match e with
  | JsError message =>
      ∃ cause, message = "Failed to convert video to WebP: " +:+ cause
        ∧ (produce cmd rt videoBuffer options s).2 = Abrupt (JsError cause)
  | _ => (produce cmd rt videoBuffer options s).2 = Abrupt e
  end.
Proof.
  intros ->%revisions_convert. rewrite FfmpegProofs.convert_shape.
  destruct (produce cmd rt videoBuffer options s) as [s1 [webp|e0]];
    cbn; [done|].
  destruct e0 as [m| |r]; cbn; intros [= <-]; [by exists m|done|done].
Qed.

Lemma convertVideoToWebP_errors_are_wrapped_witness :
  ∃ cause,
    "Failed to convert video to WebP: Command failed: ffmpeg exited with code 1"
    = "Failed to convert video to WebP: " +:+ cause
    ∧ (produce Clamped.ffmpegCommand rt_ffmpeg_fails [Byte.x00] None
         empty_disk).2 = Abrupt (JsError cause).
Proof.
  apply (convertVideoToWebP_errors_are_wrapped Clamped.convertVideoToWebP
           Clamped.ffmpegCommand rt_ffmpeg_fails [Byte.x00] None empty_disk
           (JsError "Failed to convert video to WebP: Command failed: ffmpeg exited with code 1")).
  - apply list_elem_of_here.
  - reflexivity.
Defined.

Lemma execs_app (l1 l2 : list Ffmpeg.event) :
  execs (l1 ++ l2) = execs l1 ++ execs l2.
Proof. apply List.filter_app. Qed.

(** The subprocess is started once if the input file could be written
    and not at all otherwise; a failed conversion is never tried again. *)
Theorem convertVideoToWebP_runs_ffmpeg_once conv cmd (rt : Runtime)
    (videoBuffer : Buffer) (options : option Options) (s : Sys) :
  (conv, cmd) ∈ revisions →
  execs (log (conv rt videoBuffer options s).1)
  = execs (log s) ++
    match (os_writeFile rt (inputPath rt) videoBuffer (files s)).2 with
    | Normal _ =>
        [EvExec (cmd (default (Int 85) (options ≫= quality))
                     (default (Int 30) (options ≫= fps))
                     (inputPath rt) (outputPath rt))]
    | Abrupt _ => []
    end.
Proof.
  intros ->%revisions_convert.
  rewrite FfmpegProofs.convert_shape.
  assert (Hp : execs (log (produce cmd rt videoBuffer options s).1)
    = execs (log s) ++
      match (os_writeFile rt (inputPath rt) videoBuffer (files s)).2 with
      | Normal _ =>
          [EvExec (cmd (default (Int 85) (options ≫= quality))
                       (default (Int 30) (options ≫= fps))
                       (inputPath rt) (outputPath rt))]
      | Abrupt _ => []
      end).
  { rewrite produce_eq. cbn zeta.
    destruct (os_writeFile rt (inputPath rt) videoBuffer (files s))
      as [fs1 [[]|e]]; cbn [snd].
    2: { cbn [fst log]. rewrite !execs_app. cbn. done. }
    destruct (os_exec rt _ fs1) as [fs2 [stderr|e]].
    2: { cbn [fst log]. rewrite !execs_app. cbn. by rewrite !app_nil_r. }
    destruct (includes stderr "Error").
    { cbn [fst log]. rewrite !execs_app. cbn. by rewrite !app_nil_r. }
    destruct (fs2 !! outputPath rt); cbn [fst log]; rewrite !execs_app; cbn;
      by rewrite !app_nil_r. }
  destruct (produce cmd rt videoBuffer options s) as [s1 [webp|e]];
    cbn [fst] in Hp; cbn zeta; cbn [fst log];
    rewrite ?execs_app, FfmpegProofs.cleanup_log, execs_app, Hp; cbn;
    by rewrite ?app_nil_r.
Qed.

Lemma convertVideoToWebP_runs_ffmpeg_once_witness :
  execs (log (Plain.convertVideoToWebP rt_ffmpeg_fails [Byte.x00] None
                empty_disk).1)
  = execs (log empty_disk) ++
    match (os_writeFile rt_ffmpeg_fails (inputPath rt_ffmpeg_fails)
             [Byte.x00] (files empty_disk)).2 with
    | Normal _ =>
        [EvExec (Plain.ffmpegCommand (Int 85) (Int 30)
                   (inputPath rt_ffmpeg_fails) (outputPath rt_ffmpeg_fails))]
    | Abrupt _ => []
    end.
Proof.
  apply (convertVideoToWebP_runs_ffmpeg_once Plain.convertVideoToWebP
           Plain.ffmpegCommand rt_ffmpeg_fails [Byte.x00] None empty_disk).
  apply list_elem_of_further, list_elem_of_here.
Defined.

Lemma unlink_keeps_others rt p s q :
  q ≠ p → files (unlink rt p s).1 !! q = files s !! q.
Proof.
  intros Hne. rewrite FfmpegProofs.unlink_files.
  destruct (os_unlink_denied rt p); [done|]. by rewrite lookup_delete_ne.
Qed.

(** On a system where [writeFile] and the subprocess touch only the file
    they are meant to write, the call leaves every file other than its
    two temporary files exactly as it found it, on every exit path. *)
Theorem convertVideoToWebP_keeps_other_files conv cmd (rt : Runtime)
    (videoBuffer : Buffer) (options : option Options) (s : Sys) (q : string) :
  (conv, cmd) ∈ revisions →
  writes_only_its_path rt →
  exec_touches_only_output rt →
  q ≠ inputPath rt → q ≠ outputPath rt →
  files (conv rt videoBuffer options s).1 !! q = files s !! q.
Proof.
  intros ->%revisions_convert Hw He Hin Hout.
  rewrite FfmpegProofs.convert_shape.
  assert (Hp : files (produce cmd rt videoBuffer options s).1 !! q
               = files s !! q).
  { rewrite produce_eq. cbn zeta.
    specialize (Hw (inputPath rt) videoBuffer (files s) q Hin).
    destruct (os_writeFile rt (inputPath rt) videoBuffer (files s))
      as [fs1 [[]|e]]; cbn [fst] in Hw; [|done].
    match goal with
    | |- context [os_exec rt ?c fs1] =>
        specialize (He c fs1 q Hout); destruct (os_exec rt c fs1)
          as [fs2 [stderr|e]]
    end; cbn [fst] in He; [|cbn; congruence].
    destruct (includes stderr "Error"); [cbn; congruence|].
    destruct (fs2 !! outputPath rt); cbn; congruence. }
  destruct (produce cmd rt videoBuffer options s) as [s1 [webp|e]];
    cbn [fst files] in *; cbn zeta; cbn [fst files];
    rewrite !unlink_keeps_others by done; done.
Qed.

Lemma convertVideoToWebP_keeps_other_files_witness :
  files (Clamped.convertVideoToWebP rt_ok [Byte.x00] None
           disk_with_keepsake).1 !! "/tmp/render/keep.txt"
  = Some [Byte.x6b].
Proof.
  apply (convertVideoToWebP_keeps_other_files Clamped.convertVideoToWebP
           Clamped.ffmpegCommand rt_ok [Byte.x00] None disk_with_keepsake
           "/tmp/render/keep.txt").
  - apply list_elem_of_here.
  - intros path data fs q Hq. cbn. by rewrite lookup_insert_ne.
  - intros command fs q Hq. cbn. by rewrite lookup_insert_ne.
  - discriminate.
  - discriminate.
Defined.

(** The clamp of the [-q:v] revision yields a value of the band 60..70
    for every quality except NaN, which it lets through: the command line
    then carries [-q:v NaN]. *)
Theorem adjustedQuality_in_band_iff (quality fps : number)
    (inputPath outputPath : string) :
  (within (Clamped.adjustedQuality quality) 60 70 ↔ quality ≠ NaN)
  ∧ Clamped.ffmpegCommand NaN fps inputPath outputPath
    = clamped_command fps inputPath outputPath "NaN".
Proof.
  split; [|reflexivity]. split.
  - by intros Hin ->.
  - intros Hnan. by destruct (adjustedQuality_clamps quality Hnan).
Qed.

End FfmpegExtras.

(** ** The cached UI files *)

Module UiRoutesExtras.
Import UiRoutes UiRoutesSpec.

(** The routes are the three files, each behind its getter. *)
Lemma uiRoutes_route rt a :
  uiRoutes rt (route_of a) = Some (respond (getter rt a) (response_of a)).
Proof. by destruct a. Qed.

Lemma uiRoutes_some rt path handler :
  uiRoutes rt path = Some handler →
  ∃ a, path = route_of a ∧ handler = respond (getter rt a) (response_of a).
Proof.
  unfold uiRoutes. repeat case_decide; intros [= <-]; subst.
  - by exists IndexHtml.
  - by exists AppJs.
  - by exists AppCss.
Qed.

Lemma route_of_inj a b : route_of a = route_of b → a = b.
Proof. by destruct a, b. Qed.

(** A getter that finds content in its slot returns it at once. *)
Lemma start_hit rt a s content :
  cached a (cache s) = Some content → content ≠ "" →
  start (getter rt a) s = (s, Completed (Normal content)).
Proof. intros Hc Hne. destruct a; cbn in *; rewrite Hc; by destruct content. Qed.

(** A getter that finds none starts a read of its file and waits. *)
Lemma start_miss rt a s :
  truthy (cached a (cache s)) = false →
  start (getter rt a) s
  = ({| cache := cache s; reads := reads s ++ [file_of rt a] |},
     Awaits (length (reads s))).
Proof.
  intros Hc.
  destruct a; cbn in *;
    [destruct (cachedHtml (cache s)) as [[|]|]
    |destruct (cachedJs (cache s)) as [[|]|]
    |destruct (cachedCss (cache s)) as [[|]|]]; done.
Qed.

(** Neither part of a getter touches the slot of another file. *)
Lemma start_cache rt b s : cache (start (getter rt b) s).1 = cache s.
Proof.
  destruct b; cbn;
    [destruct (cachedHtml (cache s)) as [[|]|]
    |destruct (cachedJs (cache s)) as [[|]|]
    |destruct (cachedCss (cache s)) as [[|]|]]; done.
Qed.

Lemma resumed_other rt a b settled s :
  a ≠ b →
  cached a (cache (resumed (getter rt b) settled s).1) = cached a (cache s).
Proof. intros Hne. by destruct a, b, settled. Qed.

Lemma start_reads rt b s p :
  p ∈ reads (start (getter rt b) s).1 → p ∈ reads s ∨ p = file_of rt b.
Proof.
  destruct b; cbn;
    [destruct (cachedHtml (cache s)) as [[|]|]
    |destruct (cachedJs (cache s)) as [[|]|]
    |destruct (cachedCss (cache s)) as [[|]|]]; cbn;
    rewrite ?elem_of_app, ?list_elem_of_singleton; tauto.
Qed.

Lemma resumed_reads rt b settled s :
  reads (resumed (getter rt b) settled s).1 = reads s.
Proof. by destruct b, settled. Qed.

Lemma respond_start_fst get build s :
  (start (respond get build) s).1 = (start get s).1.
Proof. cbn. by destruct (start get s) as [s1 [[]|]]. Qed.

Lemma respond_resumed_fst get build settled s :
  (resumed (respond get build) settled s).1 = (resumed get settled s).1.
Proof. cbn. by destruct (resumed get settled s) as [s1 []]. Qed.

(** The module state after one turn of the event loop. *)
Lemma turn_sys rt st sv :
  sys (turn rt st sv) = sys sv
  ∨ (∃ a, st = Request (route_of a)
          ∧ sys (turn rt st sv) = (start (getter rt a) (sys sv)).1)
  ∨ (∃ a read result, st = Settles read result
          ∧ suspended sv !! read = Some (route_of a)
          ∧ sys (turn rt st sv) = (resumed (getter rt a) result (sys sv)).1).
Proof.
  destruct st as [path|read result]; cbn.
  - destruct (uiRoutes rt path) as [handler|] eqn:Hr; [|by left].
    apply uiRoutes_some in Hr as (a & -> & ->).
    right. left. exists a. split; [done|].
    rewrite <- (respond_start_fst (getter rt a) (response_of a) (sys sv)).
    by destruct (start (respond (getter rt a) (response_of a)) (sys sv))
      as [s1 []].
  - destruct (suspended sv !! read) as [path|] eqn:Hs; [|by left].
    destruct (uiRoutes rt path) as [handler|] eqn:Hr; [|by left].
    apply uiRoutes_some in Hr as (a & -> & ->).
    right. right. exists a, read, result. split; [done|]. split; [done|].
    rewrite <- (respond_resumed_fst (getter rt a) (response_of a) result (sys sv)).
    by destruct (resumed (respond (getter rt a) (response_of a)) result (sys sv)).
Qed.

(** The requests waiting after one turn: those that waited before, and
    the one that arrived in this turn. *)
Lemma turn_suspended rt st sv read path :
  suspended (turn rt st sv) !! read = Some path →
  suspended sv !! read = Some path
  ∨ (st = Request path ∧ ∃ a, path = route_of a
       ∧ truthy (cached a (cache (sys sv))) = false).
Proof.
  destruct st as [path'|read' result]; cbn.
  - destruct (uiRoutes rt path') as [handler|] eqn:Hr; [|by left].
    apply uiRoutes_some in Hr as (a & -> & ->). cbn.
    destruct (truthy (cached a (cache (sys sv)))) eqn:Hc.
    + destruct (cached a (cache (sys sv))) as [[|c content]|] eqn:Hca;
        try done.
      rewrite (start_hit rt a (sys sv) (String c content)); [|done|done].
      cbn. by left.
    + rewrite (start_miss rt a (sys sv) Hc). cbn.
      destruct (decide (read = length (reads (sys sv)))) as [->|Hne].
      * rewrite lookup_insert_eq. intros [= <-]. right. split; [done|].
        by exists a.
      * rewrite lookup_insert_ne by done. by left.
  - destruct (suspended sv !! read') as [path'|] eqn:Hs; [|by left].
    destruct (uiRoutes rt path') as [handler|] eqn:Hr; [|by left].
    destruct (resumed handler result (sys sv)) as [s1 c]. cbn.
    intros Hl. left.
    destruct (decide (read = read')) as [->|Hne].
    + by rewrite lookup_delete_eq in Hl.
    + by rewrite lookup_delete_ne in Hl.
Qed.

(** A slot that holds content, with no read of its file under way, stays
    as it is in every turn. *)
Lemma turn_keeps rt a st sv content :
  cached a (cache (sys sv)) = Some content → content ≠ "" →
  no_read_pending a sv →
  cached a (cache (sys (turn rt st sv))) = Some content
  ∧ no_read_pending a (turn rt st sv).
Proof.
  intros Hc Hne Hquiet. split.
  - destruct (turn_sys rt st sv)
      as [->|[(b & -> & ->)|(b & read & result & -> & Hs & ->)]].
    + done.
    + by rewrite start_cache.
    + rewrite resumed_other; [done|].
      intros <-. by apply (Hquiet read).
  - intros read Hs.
    apply turn_suspended in Hs as [Hs|(-> & b & Hb & Hmiss)].
    + by apply (Hquiet read).
    + apply route_of_inj in Hb as <-. rewrite Hc in Hmiss.
      by destruct content.
Qed.

Lemma serve_keeps rt a history : ∀ sv content,
  cached a (cache (sys sv)) = Some content → content ≠ "" →
  no_read_pending a sv →
  cached a (cache (sys (serve rt history sv))) = Some content
  ∧ no_read_pending a (serve rt history sv).
Proof.
  induction history as [|st rest IH]; intros sv content Hc Hne Hquiet; [done|].
  cbn [serve].
  destruct (turn_keeps rt a st sv content Hc Hne Hquiet) as [Hc' Hquiet'].
  by apply IH.
Qed.

(** Once a slot holds non-empty content and no read of its file is under
    way, that content is what is served for the rest of the process:
    whatever requests arrive and whatever reads settle in between, in any
    interleaving, a request for the file is answered at once with this
    content and starts no read. *)
Theorem cached_content_is_served_forever (rt : Runtime) (a : asset)
    (sv : Server) (content : string) (history : list step) :
  cached a (cache (sys sv)) = Some content →
  content ≠ "" →
  no_read_pending a sv →
  let sv2 := serve rt history sv in
  turn rt (Request (route_of a)) sv2
  = {| sys := sys sv2; suspended := suspended sv2;
       responses := responses sv2 ++ [Normal (response_of a content)] |}.
Proof.
  intros Hc Hne Hquiet sv2.
  destruct (serve_keeps rt a history sv content Hc Hne Hquiet) as [Hc2 _].
  fold sv2 in Hc2. cbn [turn]. rewrite uiRoutes_route.
  cbn [respond start]. by rewrite (start_hit rt a (sys sv2) content).
Qed.

Lemma cached_content_is_served_forever_witness :
  let sv := serve rt_demo [Request "/"; Settles 0 (Normal "<html>v1</html>")]
              fresh_process in
  let sv2 := serve rt_demo
               [Request "/assets/app.js"; Request "/";
                Settles 1 (Normal "js"); Settles 0 (Normal "<html>v2</html>")]
               sv in
  turn rt_demo (Request "/") sv2
  = {| sys := sys sv2; suspended := suspended sv2;
       responses := responses sv2 ++ [Normal (Html "<html>v1</html>")] |}.
Proof.
  apply (cached_content_is_served_forever rt_demo IndexHtml
           (serve rt_demo [Request "/"; Settles 0 (Normal "<html>v1</html>")]
              fresh_process)
           "<html>v1</html>"
           [Request "/assets/app.js"; Request "/";
            Settles 1 (Normal "js"); Settles 0 (Normal "<html>v2</html>")]).
  - reflexivity.
  - discriminate.
  - intros read. vm_compute. discriminate.
Defined.

(** A read that finds the file empty, or that fails while the slot is
    empty, is not remembered.  The waiting request is answered with the
    empty body, or fails with the error of the read; the slot counts as
    empty afterwards, also if another request had filled it meanwhile
    and the empty string has replaced that content; and the next request
    for the file starts a new read of it. *)
Theorem failed_or_empty_read_is_retried (rt : Runtime) (a : asset)
    (sv : Server) (read : nat) (result : completion string) :
  suspended sv !! read = Some (route_of a) →
  result = Normal ""
  ∨ (∃ e, result = Abrupt e) ∧ truthy (cached a (cache (sys sv))) = false →
  let sv1 := turn rt (Settles read result) sv in
  let sv2 := turn rt (Request (route_of a)) sv1 in
  responses sv1
  = responses sv ++ [match result with
                     | Normal body => Normal (response_of a body)
                     | Abrupt e => Abrupt e
                     end]
  ∧ truthy (cached a (cache (sys sv1))) = false
  ∧ reads (sys sv1) = reads (sys sv)
  ∧ reads (sys sv2) = reads (sys sv) ++ [file_of rt a]
  ∧ suspended sv2 !! length (reads (sys sv)) = Some (route_of a)
  ∧ responses sv2 = responses sv1.
Proof.
  intros Hs Hresult sv1 sv2.
  assert (Hsv1 : sv1 = {| sys := (resumed (getter rt a) result (sys sv)).1;
                          suspended := delete read (suspended sv);
                          responses := responses sv ++
                            [match result with
                             | Normal body => Normal (response_of a body)
                             | Abrupt e => Abrupt e
                             end] |}).
  { subst sv1. cbn [turn]. rewrite Hs, uiRoutes_route. cbn [respond resumed].
    destruct Hresult as [->|[[e ->] _]]; by destruct a. }
  assert (Hmiss : truthy (cached a (cache (sys sv1))) = false).
  { rewrite Hsv1. cbn [sys].
    destruct Hresult as [->|[[e ->] Hc]]; by destruct a. }
  assert (Hreads : reads (sys sv1) = reads (sys sv)).
  { rewrite Hsv1. cbn [sys]. apply resumed_reads. }
  subst sv2. cbn [turn]. rewrite uiRoutes_route. cbn [respond start].
  rewrite (start_miss rt a (sys sv1) Hmiss). cbn [sys suspended responses].
  rewrite Hreads, lookup_insert_eq. by rewrite Hsv1 at 1.
Qed.

Lemma failed_or_empty_read_is_retried_witness :
  let sv := serve rt_demo [Request "/"; Request "/";
                           Settles 0 (Normal "<html>v1</html>")]
              fresh_process in
  let sv1 := turn rt_demo (Settles 1 (Normal "")) sv in
  let sv2 := turn rt_demo (Request "/") sv1 in
  responses sv1 = [Normal (Html "<html>v1</html>"); Normal (Html "")]
  ∧ truthy (cachedHtml (cache (sys sv1))) = false
  ∧ reads (sys sv1) = ["/app/ui/index.html"; "/app/ui/index.html"]
  ∧ reads (sys sv2)
    = ["/app/ui/index.html"; "/app/ui/index.html"; "/app/ui/index.html"]
  ∧ suspended sv2 !! 2 = Some "/"
  ∧ responses sv2 = responses sv1.
Proof.
  apply (failed_or_empty_read_is_retried rt_demo IndexHtml
           (serve rt_demo [Request "/"; Request "/";
                           Settles 0 (Normal "<html>v1</html>")]
              fresh_process) 1 (Normal "")).
  - reflexivity.
  - by left.
Defined.






(** The routes only ever read the three files under [UI_DIR], whatever
    paths are requested and in whatever order requests arrive and reads
    settle. *)
Theorem routes_read_only_their_files (rt : Runtime) (history : list step)
    (sv : Server) (p : string) :
  p ∈ reads (sys (serve rt history sv)) →
  p ∈ reads (sys sv) ∨ ∃ a, p = file_of rt a.
Proof.
  revert sv. induction history as [|st rest IH]; intros sv Hp; [by left|].
  cbn [serve] in Hp. apply IH in Hp as [Hp|Hp]; [|by right].
  destruct (turn_sys rt st sv)
    as [Heq|[(b & -> & Heq)|(b & read & result & -> & Hs & Heq)]];
    rewrite Heq in Hp.
  - by left.
  - apply start_reads in Hp as [Hp| ->]; [by left|right; by exists b].
  - rewrite resumed_reads in Hp. by left.
Qed.

Lemma routes_read_only_their_files_witness :
  "/app/ui/index.html" ∈ reads (sys fresh_process)
  ∨ ∃ a, "/app/ui/index.html" = file_of rt_demo a.
Proof.
  apply (routes_read_only_their_files rt_demo
           [Request "/../../etc/passwd"; Request "/"; Request "/";
            Settles 1 (Abrupt (JsError "EACCES"))]
           fresh_process "/app/ui/index.html").
  vm_compute. apply list_elem_of_here.
Defined.

End UiRoutesExtras.

(** ** The render scale *)

Module RemotionConfigExtras.
Import RemotionConfig.

(** Whatever [RENDER_SCALE] holds and however it parses, the scale
    handed to [Config.setScale] is a finite number above zero: the parsed
    value when that is finite and positive, 1 otherwise (also when the
    variable is not set). *)
Theorem scale_is_finite_and_positive (toNumber : string → number)
    (RENDER_SCALE : option string) :
  (∃ q, scale toNumber RENDER_SCALE = Finite q ∧ Qcanon.Qclt zero q)
  ∧ (∀ q, scaleFromEnv toNumber RENDER_SCALE = Finite q →
          Qcanon.Qclt zero q → scale toNumber RENDER_SCALE = Finite q)
  ∧ (scale toNumber RENDER_SCALE = scaleFromEnv toNumber RENDER_SCALE
     ∨ scale toNumber RENDER_SCALE = Finite one)
  ∧ scale toNumber None = Finite one.
Proof.
  assert (H1 : Qcanon.Qclt zero one) by (by vm_compute).
  unfold scale. split; [|split; [|split]].
  - destruct (scaleFromEnv toNumber RENDER_SCALE) as [q| | |]; cbn;
      try (by exists one).
    case_bool_decide; [by exists q|by exists one].
  - intros q -> Hq. cbn. by rewrite bool_decide_eq_true_2.
  - destruct (isFinite _ && positive _); auto.
  - cbn. by rewrite bool_decide_eq_true_2.
Qed.

End RemotionConfigExtras.

(** ** Levels and layout of the contribution graph *)

Module CommitGraphExtras.
Import CommitGraphCard CommitGraphSpec.

Local Open Scope Z_scope.

Lemma getContributionLevel_range (count : Z) :
  0 ≤ getContributionLevel count ≤ 4.
Proof. unfold getContributionLevel. repeat case_match; lia. Qed.

(** The level of a count lies between 0 and 4, is 0 only for a count of
    0, never decreases as a non-negative count grows, and is 4, the
    darkest, for a negative count. *)
Theorem getContributionLevel_levels (count : Z) :
  0 ≤ getContributionLevel count ≤ 4
  ∧ (getContributionLevel count = 0 ↔ count = 0)
  ∧ (count < 0 → getContributionLevel count = 4)
  ∧ ∀ more, 0 ≤ count ≤ more →
            getContributionLevel count ≤ getContributionLevel more.
Proof.
  unfold getContributionLevel.
  repeat split; intros;
    repeat (case_match; try lia);
    repeat match goal with
           | H : (_ && _) = true |- _ => apply andb_true_iff in H as [??]
           | H : (_ && _) = false |- _ => apply andb_false_iff in H as [?|?]
           end; lia.
Qed.

(** With at least one week the graph never gets wider than the card's
    inner width, and it leaves less than one pixel per week unused. *)
Theorem graph_fits_card (st : Settings) (targetWeeks : Z) :
  1 ≤ targetWeeks →
  graphWidth st targetWeeks ≤ availableGraphWidth st
  ∧ availableGraphWidth st - graphWidth st targetWeeks < targetWeeks.
Proof.
  intros Hn. unfold graphWidth, squareSize.
  set (a := availableGraphWidth st - (targetWeeks - 1) * gap st).
  pose proof (Z.mul_div_le a targetWeeks ltac:(lia)).
  pose proof (Z.mul_succ_div_gt a targetWeeks ltac:(lia)).
  subst a. split; lia.
Qed.

Lemma graph_fits_card_witness :
  graphWidth settings_demo 53 ≤ availableGraphWidth settings_demo
  ∧ availableGraphWidth settings_demo - graphWidth settings_demo 53 < 53.
Proof. apply (graph_fits_card settings_demo 53). lia. Defined.

(** When the gaps alone fit the width, squares have a non-negative size,
    every square of week [weekIndex] and day [dayIndex] lies inside the
    drawing of [graphWidth] by [graphHeight], and the square of the next
    week starts a full gap after this one ends. *)
Theorem squares_stay_inside (st : Settings) (targetWeeks weekIndex dayIndex : Z) :
  1 ≤ targetWeeks →
  0 ≤ gap st →
  (targetWeeks - 1) * gap st ≤ availableGraphWidth st →
  0 ≤ weekIndex < targetWeeks →
  0 ≤ dayIndex < 7 →
  0 ≤ squareSize st targetWeeks
  ∧ 0 ≤ x st targetWeeks weekIndex
  ∧ x st targetWeeks weekIndex + squareSize st targetWeeks
    ≤ graphWidth st targetWeeks
  ∧ 0 ≤ y st targetWeeks dayIndex
  ∧ y st targetWeeks dayIndex + squareSize st targetWeeks
    ≤ graphHeight st targetWeeks
  ∧ x st targetWeeks (weekIndex + 1)
    = x st targetWeeks weekIndex + squareSize st targetWeeks + gap st.
Proof.
  intros Hn Hg Hfit Hw Hd. unfold graphWidth, graphHeight, x, y.
  assert (Hs : 0 ≤ squareSize st targetWeeks).
  { unfold squareSize. apply Z.div_pos; lia. }
  set (sq := squareSize st targetWeeks) in *.
  repeat split; nia.
Qed.

Lemma squares_stay_inside_witness :
  0 ≤ squareSize settings_demo 53
  ∧ 0 ≤ x settings_demo 53 52
  ∧ x settings_demo 53 52 + squareSize settings_demo 53
    ≤ graphWidth settings_demo 53
  ∧ 0 ≤ y settings_demo 53 6
  ∧ y settings_demo 53 6 + squareSize settings_demo 53
    ≤ graphHeight settings_demo 53
  ∧ x settings_demo 53 (52 + 1)
    = x settings_demo 53 52 + squareSize settings_demo 53 + gap settings_demo.
Proof.
  apply (squares_stay_inside settings_demo 53 52 6);
    unfold availableGraphWidth, cardInnerWidth; cbn; lia.
Defined.

(** [graphData] has one row per week and one cell per day; each cell has
    a level from 0 to 4, so that [getColor] gives it one of the five
    palette colours and never takes its fallback branch; a day without a
    count gets level 0. *)
Theorem graphData_cells (graphColors : GraphColors) (weeks : list Week) :
  length (graphData weeks) = length weeks
  ∧ ∀ i week, weeks !! i = Some week →
      ∃ row, graphData weeks !! i = Some row
        ∧ length row = length (contributionDays week)
        ∧ ∀ j day, contributionDays week !! j = Some day →
            ∃ cell, row !! j = Some cell
              ∧ 0 ≤ level cell ≤ 4
              ∧ getColor graphColors (level cell) ∈ palette graphColors
              ∧ (contributionCount day = None → level cell = 0).
Proof.
  unfold graphData. split; [by rewrite length_fmap|].
  intros i week Hi. eexists. split.
  { rewrite list_lookup_fmap, Hi. reflexivity. }
  split; [by rewrite length_fmap|].
  intros j day Hj. eexists. split.
  { rewrite list_lookup_fmap, Hj. reflexivity. }
  cbn [level].
  pose proof (getContributionLevel_range (default 0 (contributionCount day)))
    as Hr.
  split; [done|]. split.
  - unfold palette.
    assert (Hl : getContributionLevel (default 0 (contributionCount day))
                 ∈ [0; 1; 2; 3; 4]).
    { set (l := getContributionLevel _) in *.
      assert (l = 0 ∨ l = 1 ∨ l = 2 ∨ l = 3 ∨ l = 4) as Hc by lia.
      rewrite !elem_of_cons. tauto. }
    rewrite !elem_of_cons, elem_of_nil in Hl.
    destruct Hl as [->|[->|[->|[->|[->|[]]]]]]; cbn [getColor];
      rewrite !elem_of_cons; tauto.
  - intros ->. reflexivity.
Qed.

End CommitGraphExtras.
